(** * nttweatherapp: the TTL cache of [backend/services/cache_service.py]

    A shallow embedding of [CacheService] and of the cache-consulting part
    of the [/api/weather] handler of [backend/app.py], with the properties
    of the cache's specification stated and proved over it.

    Modelling decisions.
    - [self._cache] is a Python [dict] from [str] to entry dicts; it is a
      [gmap string entry].  Iteration order is not modelled: where the code
      returns keys in insertion order, the model returns them in the
      map's order, and only membership and number are stated of them.
    - An entry dict always has the three keys that [set] writes, so it is a
      record.
    - [time.time()] returns a double.  A double is the rational number it
      denotes ([Q]), and every float operation of the class rounds its
      exact result to the nearest double, ties to even
      ([round_double]): the conversion of [ttl], the sum in [set], the
      difference in [get_remaining_ttl].  The conversion raises
      [OverflowError] when the integer is too large for a double.
    - A clock reading ([clock]) is a double between 0 and [2^40] seconds
      after the epoch.  With such readings and a [ttl] that converts, the
      sum in [set] stays below the largest double
      ([stored_expiry_finite]), so infinities never arise and are not
      modelled.
    - Every method body runs under [self._lock] (an [RLock]), so a call is
      one atomic transition of the store.  Each call takes the clock
      readings it makes as arguments, in the order the body makes them.
    - Python exceptions are explicit: a method is a function from the store
      to [result (A * store)]; [dict] subscription and [del] on a missing
      key raise [KeyError] as they do in Python. *)

From Stdlib Require Import QArith Qround Lqa.
From stdpp Require Import gmap strings list fin_maps.

Local Open Scope Z_scope.

(** ** Python values *)

(** The payloads the cache can hold ([Any]); enough of Python's value
    universe for [None], truthiness and JSON-like weather responses. *)
#[warnings="-register-all"]
Inductive pyval : Type :=
  | PNone
  | PBool (b : bool)
  | PInt (z : Z)
  | PFloat (q : Q)
  | PStr (s : string)
  | PList (l : list pyval)
  | PDict (d : list (string * pyval)).

(** [x is None] *)
Definition is_None (v : pyval) : bool :=
  match v with PNone => true | _ => false end.

(** Python truthiness, as used by [if cached_data:]. *)
Definition truthy (v : pyval) : bool :=
  match v with
  | PNone => false
  | PBool b => b
  | PInt z => negb (z =? 0)
  | PFloat q => negb (Qeq_bool q 0)
  | PStr s => negb (String.eqb s "")
  | PList l => match l with [] => false | _ => true end
  | PDict d => match d with [] => false | _ => true end
  end.

(** ** Exceptions and the store monad *)

Inductive exn : Type := KeyError | OverflowError | TypeError.

Inductive result (A : Type) : Type :=
  | Ok (a : A)
  | Raise (e : exn).
Arguments Ok {A} a.
Arguments Raise {A} e.

Definition raises {A} (r : result A) : Prop :=
  match r with Ok _ => False | Raise _ => True end.

(** ** Cache entries and the store *)

Record entry : Type := Entry {
  value : pyval;
  expires_at : Q;
  created_at : Q
}.

Abbreviation store := (gmap string entry).

(** A method call: reads and writes the store, returns or raises. *)
Definition M (A : Type) : Type := store → result (A * store).

Definition ret {A} (a : A) : M A := λ st, Ok (a, st).
Definition throw {A} (e : exn) : M A := λ _, Raise e.
Definition bind {A B} (m : M A) (f : A → M B) : M B :=
  λ st, match m st with
        | Ok (a, st') => f a st'
        | Raise e => Raise e
        end.
Definition read : M store := λ st, Ok (st, st).
Definition write (st' : store) : M unit := λ _, Ok (tt, st').

Declare Scope cache_scope.
Delimit Scope cache_scope with cache.
Notation "'let*' x := m 'in' k" := (bind m (λ x, k))
  (at level 10, x name, m at level 100, k at level 200) : cache_scope.
Local Open Scope cache_scope.

(** *** The [dict] primitives the class uses *)

(** [key in self._cache] *)
Definition contains (key : string) : M bool :=
  let* st := read in ret (bool_decide (is_Some (st !! key))).

(** [self._cache[key]] *)
Definition getitem (key : string) : M entry :=
  let* st := read in
  match st !! key with
  | Some e => ret e
  | None => throw KeyError
  end.

(** [del self._cache[key]] *)
Definition delitem (key : string) : M unit :=
  let* st := read in
  match st !! key with
  | Some _ => write (delete key st)
  | None => throw KeyError
  end.

(** [self._cache[key] = e] *)
Definition setitem (key : string) (e : entry) : M unit :=
  let* st := read in write (<[key := e]> st).

(** *** Numbers *)

(** [a > b] on clock readings. *)
Definition Qgt_bool (a b : Q) : bool :=
  (Qnum b * QDen a <? Qnum a * QDen b).

(** *** Doubles *)

(** [n >= 0] rounded to a multiple of [2^s], to nearest, ties to the even
    multiple. *)
Definition rne_shift (n s : Z) : Z :=
  let q := n / 2 ^ s in
  let r := n mod 2 ^ s in
  let q' := match r ?= 2 ^ (s - 1) with
            | Lt => q
            | Gt => q + 1
            | Eq => if Z.even q then q else q + 1
            end in
  q' * 2 ^ s.

(** [n >= 0] rounded to 53 significant bits. *)
Definition round53 (n : Z) : Z :=
  if n <? 2 ^ 53 then n else rne_shift n (Z.log2 n - 52).

Definition round53s (n : Z) : Z :=
  if n <? 0 then - round53 (- n) else round53 n.

(** The integer nearest to [x], ties to even. *)
Definition Qrne (x : Q) : Z :=
  let f := Qfloor x in
  match (x - inject_Z f ?= 1 # 2)%Q with
  | Lt => f
  | Gt => f + 1
  | Eq => if Z.even f then f else f + 1
  end.

(** Doubles are the multiples of [2^-1074] with at most 53 significant
    bits. *)
Definition TINY : Z := 2 ^ 1074.

(** The double nearest to [x], ties to even: the result of a float
    operation whose exact result is [x].  The exact results the class
    produces are sums and differences of doubles and integers, all
    multiples of [2^-1074], so the first rounding below is exact for
    them. *)
Definition round_double (x : Q) : Q :=
  Qred (inject_Z (round53s (Qrne (x * inject_Z TINY))) / inject_Z TINY).

(** The least magnitude that no longer converts to a double: integers
    round to nearest, ties to even, so everything from the midpoint between
    the largest double [2^1024 - 2^971] and [2^1024] on overflows. *)
Definition DBL_OVERFLOW : Z := 2 ^ 1024 - 2 ^ 970.

(** The largest double. *)
Definition DBL_MAX : Z := 2 ^ 1024 - 2 ^ 971.

(** The implicit [int -> float] conversion of [float + int]. *)
Definition float_of_int (z : Z) : result Q :=
  if Z.abs z <? DBL_OVERFLOW then Ok (round_double (inject_Z z))
  else Raise OverflowError.

(** *** Clock readings *)

Definition CLOCK_MAX : Z := 2 ^ 40.

(** What [time.time()] can return. *)
Definition is_clock (q : Q) : bool :=
  Qeq_bool (round_double q) q && Qle_bool 0 q
  && Qle_bool q (inject_Z CLOCK_MAX).

Record clock : Type := Clock {
  seconds : Q;
  clock_ok : is_clock seconds = true
}.
Coercion seconds : clock >-> Q.

(** The reading written as the Python float literal [q]: the double
    nearest to [q] (and the epoch when that is out of range). *)
Definition clock_at (q : Q) : clock :=
  let d := round_double q in
  match is_clock d as b return is_clock d = b → clock with
  | true => λ H, Clock d H
  | false => λ _, Clock 0 eq_refl
  end eq_refl.

(** [int(x)] on a float: truncation toward zero. *)
Definition py_int (x : Q) : Z := Z.quot (Qnum x) (QDen x).

(** ** CacheService *)

(** [__init__]: the empty dict. *)
Definition init : store := ∅.

(** The test [current_time > entry['expires_at']] shared by [get],
    [cleanup_expired], [get_stats] and [get_remaining_ttl]. *)
Definition expired (current_time : Q) (e : entry) : bool :=
  Qgt_bool current_time (expires_at e).

(** [get(key)]; [current_time] is the reading of [time.time()], made only
    when the key is present. *)
Definition get (key : string) (current_time : clock) : M pyval :=
  let* present := contains key in
  if negb present then ret PNone
  else
    let* e := getitem key in
    if expired current_time e then
      let* _ := delitem key in ret PNone
    else ret (value e).

(** The value of the parameter [ttl: int = 900]: the argument, or the
    default when the caller omits it. *)
Definition ttl_or_default (ttl : option Z) : Z := default 900 ttl.

(** [set(key, value, ttl=900)].  [t_exp] is the reading used for
    [expires_at], [t_created] the later one stored as [created_at]. *)
Definition set (key : string) (v : pyval) (ttl : option Z)
    (t_exp t_created : clock) : M unit :=
  let ttl := ttl_or_default ttl in
  match float_of_int ttl with
  | Raise e => throw e
  | Ok ttl_f =>
      let expires := round_double (t_exp + ttl_f) in
      setitem key {| value := v; expires_at := expires;
                     created_at := t_created |}
  end.

(** [delete(key)] *)
Definition delete_key (key : string) : M bool :=
  let* present := contains key in
  if present then let* _ := delitem key in ret true
  else ret false.

(** [clear()] *)
Definition clear : M unit :=
  let* st := read in
  let count := Z.of_nat (size st) in
  write ∅.

(** [for x in l: body(x)] *)
Fixpoint for_each {A} (l : list A) (body : A → M unit) : M unit :=
  match l with
  | [] => ret tt
  | x :: l' => let* _ := body x in for_each l' body
  end.

(** The list comprehension of [cleanup_expired]. *)
Definition expired_keys (current_time : Q) (st : store) : list string :=
  (filter (λ kv, Is_true (expired current_time kv.2)) (map_to_list st)).*1.

(** [cleanup_expired()] *)
Definition cleanup_expired (current_time : clock) : M Z :=
  let* st := read in
  let keys := expired_keys current_time st in
  let* _ := for_each keys delitem in
  ret (Z.of_nat (length keys)).

Record stats : Type := Stats {
  total_entries : Z;
  active_entries : Z;
  expired_entries : Z;
  cache_keys : list string
}.

(** [get_stats()].  [cache_keys] holds the stored keys in the map's
    order; the code lists them in insertion order. *)
Definition get_stats (current_time : clock) : M stats :=
  let* st := read in
  let total := Z.of_nat (size st) in
  let n_expired :=
    Z.of_nat (length (filter (λ e, Is_true (expired current_time e))
                             (map_to_list st).*2)) in
  ret {| total_entries := total;
         active_entries := total - n_expired;
         expired_entries := n_expired;
         cache_keys := (map_to_list st).*1 |}.

(** [has_key(key)]: [self.get(key) is not None] *)
Definition has_key (key : string) (current_time : clock) : M bool :=
  let* v := get key current_time in ret (negb (is_None v)).

(** [get_remaining_ttl(key)] *)
Definition get_remaining_ttl (key : string) (current_time : clock)
    : M (option Z) :=
  let* present := contains key in
  if negb present then ret None
  else
    let* e := getitem key in
    if expired current_time e then ret (Some 0)
    else ret (Some (py_int (round_double (expires_at e - current_time)))).

(** ** Sequences of calls *)

(** One call on the shared instance, with the clock readings it makes. *)
Inductive call : Type :=
  | CallGet (key : string) (current_time : clock)
  | CallSet (key : string) (v : pyval) (ttl : option Z)
      (t_exp t_created : clock)
  | CallDelete (key : string)
  | CallClear
  | CallCleanupExpired (current_time : clock)
  | CallGetStats (current_time : clock)
  | CallHasKey (key : string) (current_time : clock)
  | CallGetRemainingTtl (key : string) (current_time : clock).

(** The effect of a call on the store, its return value dropped. *)
Definition exec (c : call) : M unit :=
  match c with
  | CallGet key t => let* _ := get key t in ret tt
  | CallSet key v ttl t1 t2 => set key v ttl t1 t2
  | CallDelete key => let* _ := delete_key key in ret tt
  | CallClear => clear
  | CallCleanupExpired t => let* _ := cleanup_expired t in ret tt
  | CallGetStats t => let* _ := get_stats t in ret tt
  | CallHasKey key t => let* _ := has_key key t in ret tt
  | CallGetRemainingTtl key t => let* _ := get_remaining_ttl key t in ret tt
  end.

(** What the [set] call that wrote an entry was given: a ghost record kept
    beside the store, never read by the code. *)
Record origin : Type := Origin {
  o_ttl : Z;
  o_t_exp : clock;
  o_t_created : clock
}.

Definition ghost_step (c : call) (g : gmap string origin)
    : gmap string origin :=
  match c with
  | CallSet key _ ttl t1 t2 =>
      <[key := {| o_ttl := match ttl with Some z => z | None => 900 end;
                  o_t_exp := t1; o_t_created := t2 |}]> g
  | _ => g
  end.

(** The stores a fresh instance can be in, each with the ghost origins of
    the [set] calls made so far. *)
Inductive reachable : store → gmap string origin → Prop :=
  | reach_init : reachable init ∅
  | reach_step c st g st' :
      reachable st g →
      exec c st = Ok (tt, st') →
      reachable st' (ghost_step c g).

(** ** The cache-consulting part of the [/api/weather] handler *)

(** [str.lower] restricted to ASCII text, for the examples: it lower-cases
    the letters A-Z and leaves other bytes as they are.  The handlers below
    take [str.lower] itself as a parameter. *)
Definition lower_ascii (c : Ascii.ascii) : Ascii.ascii :=
  let n := Ascii.nat_of_ascii c in
  if ((65 <=? n) && (n <=? 90))%nat then Ascii.ascii_of_nat (n + 32) else c.

Fixpoint lower (s : string) : string :=
  match s with
  | EmptyString => EmptyString
  | String c s' => String (lower_ascii c) (lower s')
  end.

(** [f"{city.lower()}_{units}"], with [str.lower] of the Python runtime as
    [str_lower]. *)
Definition cache_key_of (str_lower : string → string) (city units : string)
    : string :=
  str_lower city +:+ "_" +:+ units.

Fixpoint assoc (k : string) (d : list (string * pyval)) : option pyval :=
  match d with
  | [] => None
  | (k', v) :: d' => if String.eqb k k' then Some v else assoc k d'
  end.

(** [v[k]] for a string key. *)
Definition subscript (v : pyval) (k : string) : result pyval :=
  match v with
  | PDict d =>
      match assoc k d with
      | Some x => Ok x
      | None => Raise KeyError
      end
  | _ => Raise TypeError
  end.

(** [v == s] for a string literal [s]. *)
Definition eq_str (v : pyval) (s : string) : bool :=
  match v with PStr s' => String.eqb s' s | _ => false end.

(** The process state the handler works on: the module-level
    [cache_service], and a log of the calls made to [weather_service]. *)
Record world : Type := World {
  cache : store;
  upstream_calls : list (string * string)
}.

Definition internal_error : pyval * Z :=
  (PDict [("status", PStr "error");
          ("message", PStr "Internal server error. Please try again later.")],
   500).

Section Handler.
(** [str.lower] of the Python runtime. *)
Variable str_lower : string → string.
(** [weather_service.get_weather_by_city], an external collaborator. *)
Variable get_weather_by_city : string → string → result pyval.

(** [get_weather()] from the comment [# Check cache first] on, for a
    [city] and [units] that passed the request validation above it.  The
    result is the response body with its status code; any exception ends
    in the handler's [except Exception] clause. *)
Definition get_weather (city units : string)
    (t_get t_exp t_created : clock)
    (w : world) : (pyval * Z) * world :=
  let cache_key := cache_key_of str_lower city units in
  match get cache_key t_get (cache w) with
  | Raise _ => (internal_error, w)
  | Ok (cached_data, st1) =>
      if truthy cached_data then
        ((cached_data, 200),
         {| cache := st1; upstream_calls := upstream_calls w |})
      else
        let w1 := {| cache := st1;
                     upstream_calls := upstream_calls w ++ [(city, units)] |} in
        match get_weather_by_city city units with
        | Raise _ => (internal_error, w1)
        | Ok weather_data =>
            match subscript weather_data "status" with
            | Raise _ => (internal_error, w1)
            | Ok status =>
                if eq_str status "error" then ((weather_data, 404), w1)
                else
                  match set cache_key weather_data (Some 900)
                            t_exp t_created st1 with
                  | Raise _ => (internal_error, w1)
                  | Ok (_, st2) =>
                      ((weather_data, 200),
                       {| cache := st2;
                          upstream_calls := upstream_calls w1 |})
                  end
            end
        end
  end.
End Handler.

(** ** The [/api/weather/<city>] handler *)

Definition no_cached_data : pyval * Z :=
  (PDict [("status", PStr "error");
          ("message", PStr "No cached data found for this city")],
   404).

Definition retrieval_error : pyval * Z :=
  (PDict [("status", PStr "error");
          ("message", PStr "Error retrieving cached data")],
   500).

(** [get_cached_weather(city)]; [units_arg] is the query parameter
    [units], absent or given, and [str_lower] is [str.lower]. *)
Definition get_cached_weather (str_lower : string → string)
    (city : string) (units_arg : option string)
    (t_get : clock) (w : world) : (pyval * Z) * world :=
  let units := default "metric" units_arg in
  let cache_key := cache_key_of str_lower city units in
  match get cache_key t_get (cache w) with
  | Raise _ => (retrieval_error, w)
  | Ok (cached_data, st1) =>
      let w1 := {| cache := st1; upstream_calls := upstream_calls w |} in
      if truthy cached_data then ((cached_data, 200), w1)
      else (no_cached_data, w1)
  end.

(** ** MockWeatherService *)

Module MockWeatherService.

(** One city of [self.mock_data]. *)
Record city_data : Type := CityData {
  temperature : Z;
  description : string;
  humidity : Z;
  wind_speed : Z;
  weather_icon : string
}.

(** [self.mock_data], in the order of the dict literal. *)
Definition mock_data : list (string * city_data) :=
  [ ("london", CityData 18 "Partly cloudy" 65 12 "02d");
    ("tokyo", CityData 25 "Sunny" 58 8 "01d");
    ("new york", CityData 22 "Light rain" 78 15 "10d");
    ("paris", CityData 16 "Overcast" 72 10 "04d");
    ("sydney", CityData 28 "Clear sky" 55 18 "01d");
    ("mumbai", CityData 32 "Thunderstorm" 85 22 "11d");
    ("berlin", CityData 14 "Light snow" 68 14 "13d");
    ("moscow", CityData (-5) "Heavy snow" 82 25 "13d") ].

(** [self.mock_data[city_key]], [None] when [city_key not in
    self.mock_data]. *)
Fixpoint lookup_city (city_key : string) (d : list (string * city_data))
    : option city_data :=
  match d with
  | [] => None
  | (k, c) :: d' => if String.eqb city_key k then Some c
                    else lookup_city city_key d'
  end.

(** The double quote character of the message. *)
Definition dquote : string :=
  String (Ascii.ascii_of_nat 34) EmptyString.

Section Methods.
(** [str.lower], [str.strip] and [str.title] of the Python runtime. *)
Variables str_lower str_strip str_title : string → string.

(** [get_weather_by_city(city, units)].  The three results of
    [random.randint] are arguments, in the order they are drawn, and so is
    the text of [datetime.now().isoformat()].  In imperial units the
    temperature and wind speed are floats, here exact rationals. *)
Definition get_weather_by_city
    (temp_variation humidity_variation wind_variation : Z)
    (timestamp : string) (city units : string) : pyval :=
  let city_key := str_strip (str_lower city) in
  match lookup_city city_key mock_data with
  | None =>
      PDict [("status", PStr "error");
             ("message",
              PStr ("City " +:+ dquote +:+ city +:+ dquote
                    +:+ " not found in test data"))]
  | Some base =>
      let temperature0 := temperature base + temp_variation in
      let humidity0 := humidity base + humidity_variation in
      let wind_speed0 := wind_speed base + wind_variation in
      let imperial := String.eqb units "imperial" in
      let temperature1 :=
        if imperial then PFloat (inject_Z (temperature0 * 9) / 5 + 32)%Q
        else PInt temperature0 in
      let wind_speed1 :=
        if imperial then
          let w := (inject_Z wind_speed0 * (2237 # 1000))%Q in
          if Qgt_bool w 0 then PFloat w else PInt 0
        else PInt (Z.max 0 wind_speed0) in
      PDict [("status", PStr "success");
             ("city", PStr (str_title city));
             ("country", PStr "Test Country");
             ("temperature", temperature1);
             ("description", PStr (description base));
             ("humidity", PInt (Z.max 0 (Z.min 100 humidity0)));
             ("wind_speed", wind_speed1);
             ("weather_icon", PStr (weather_icon base));
             ("units", PStr units);
             ("timestamp", PStr timestamp);
             ("is_mock_data", PBool true)]
  end.

(** [get_available_cities()] *)
Definition get_available_cities : list string := mock_data.*1.
End Methods.

End MockWeatherService.

(** ** WeatherService *)

Module WeatherService.

(** What [requests.get(...)] did: it returned a response, with its status
    code and what [response.json()] gives or raises, or it raised; of the
    exceptions only the class matters, in the order of the [except]
    clauses. *)
Inductive http_outcome : Type :=
  | Responded (status_code : Z) (json : result pyval)
  | RaisedTimeout
  | RaisedConnectionError
  | RaisedOther.

Definition error_response (message : string) : pyval :=
  PDict [("status", PStr "error"); ("message", PStr message)].

Section Methods.
(** [self._format_weather_response], which raises when the provider's
    answer lacks a field. *)
Variable format_weather_response : pyval → string → result pyval.

(** [get_weather_by_city(city, units)] *)
Definition get_weather_by_city (http : http_outcome) (city units : string)
    : pyval :=
  match http with
  | Responded status_code json =>
      if status_code =? 200 then
        match json with
        | Ok data =>
            match format_weather_response data units with
            | Ok formatted => formatted
            | Raise _ =>
                error_response
                  "An unexpected error occurred. Please try again later."
            end
        | Raise _ =>
            error_response
              "An unexpected error occurred. Please try again later."
        end
      else if status_code =? 404 then
        error_response
          ("City " +:+ MockWeatherService.dquote +:+ city
           +:+ MockWeatherService.dquote
           +:+ " not found. Please check the spelling and try again.")
      else if status_code =? 401 then
        error_response
          "Weather service temporarily unavailable. Please try again later."
      else
        error_response
          "Weather service temporarily unavailable. Please try again later."
  | RaisedTimeout => error_response "Request timeout. Please try again."
  | RaisedConnectionError =>
      error_response
        "Unable to connect to weather service. Please check your internet connection."
  | RaisedOther =>
      error_response "An unexpected error occurred. Please try again later."
  end.
End Methods.

End WeatherService.

(** ** The [/api/test/weather/random] handler *)

Definition test_mode_only : pyval * Z :=
  (PDict [("status", PStr "error");
          ("message", PStr "Test endpoints are only available in test mode")],
   403).

Definition random_weather_error : pyval * Z :=
  (PDict [("status", PStr "error");
          ("message", PStr "Error retrieving random weather data")],
   500).

(** [get_random_weather()].  [test_mode] is [Config.TEST_MODE]; when it is
    set, [weather_service] is the [MockWeatherService].  [pick] is the
    number [random.choice] draws: it returns the element at that index
    modulo the length, and raises on an empty list. *)
Definition get_random_weather (test_mode : bool)
    (str_lower str_strip str_title : string → string)
    (pick : nat) (units_arg : option string)
    (temp_variation humidity_variation wind_variation : Z)
    (timestamp : string) : pyval * Z :=
  if negb test_mode then test_mode_only
  else
    let cities := MockWeatherService.get_available_cities in
    match cities !! (pick `mod` length cities)%nat with
    | None => random_weather_error
    | Some random_city =>
        let units := default "metric" units_arg in
        let weather_data :=
          MockWeatherService.get_weather_by_city str_lower str_strip str_title
            temp_variation humidity_variation wind_variation timestamp
            random_city units in
        (weather_data, 200)
    end.

(** ** Auxiliary definitions for the proofs *)

(** What the loop of [cleanup_expired] computes when no [del] raises. *)
Definition delete_all (ks : list string) (st : store) : store :=
  foldl (λ m k, delete k m) st ks.

(** The store [cleanup_expired] leaves: the entries that are not expired. *)
Definition swept (now : Q) (st : store) : store :=
  delete_all (expired_keys now st) st.

(** What [set] stores as [expires_at] for the first clock reading [t] and
    the argument [ttl]: the double [time.time() + ttl]. *)
Definition stored_expiry (t : Q) (ttl : Z) : Q :=
  round_double (t + round_double (inject_Z ttl)).

(** ** Sample data *)

(** One entry for Oslo, written at time 0 and good until time 10. *)
Definition oslo_store : store :=
  {[ "oslo_metric" := Entry (PStr "rain") 10 0 ]}.

(** The same key after [set("oslo_metric", "sun", ttl=900)] with clock
    readings 20 and 21. *)
Definition oslo_store_refreshed : store :=
  {[ "oslo_metric" := Entry (PStr "sun") (20 + inject_Z 900) 21 ]}.

(** Oslo as above and Rome, written at time 5 and good until time 30. *)
Definition two_city_store : store :=
  <[ "rome_metric" := Entry (PStr "sun") 30 5 ]> oslo_store.


(** A weather service that always succeeds. *)
Definition sample_upstream (city units : string) : result pyval :=
  Ok (PDict [("status", PStr "success"); ("city", PStr city)]).

(** * Properties *)

(** ** Rounding to a double *)

Lemma rne_shift_bounds n s :
  0 < s → n / 2 ^ s * 2 ^ s ≤ rne_shift n s ≤ (n / 2 ^ s + 1) * 2 ^ s.
Proof.
  intros Hs. unfold rne_shift. cbv zeta.
  assert (0 < 2 ^ s) by (apply Z.pow_pos_nonneg; lia).
  destruct (n mod 2 ^ s ?= 2 ^ (s - 1)); [destruct (Z.even _)|..]; nia.
Qed.

Lemma rne_shift_mono n m s :
  0 < s → n ≤ m → rne_shift n s ≤ rne_shift m s.
Proof.
  intros Hs Hnm.
  assert (0 < 2 ^ s) as HP by (apply Z.pow_pos_nonneg; lia).
  assert (n / 2 ^ s ≤ m / 2 ^ s) as Hq by (apply Z.div_le_mono; lia).
  destruct (Z.eq_dec (n / 2 ^ s) (m / 2 ^ s)) as [Heq|Hne].
  - assert (n mod 2 ^ s ≤ m mod 2 ^ s) as Hr.
    { rewrite !Z.mod_eq by lia. rewrite Heq. lia. }
    unfold rne_shift. cbv zeta. rewrite <- Heq.
    destruct (Z.compare_spec (n mod 2 ^ s) (2 ^ (s - 1)));
      destruct (Z.compare_spec (m mod 2 ^ s) (2 ^ (s - 1)));
      try destruct (Z.even (n / 2 ^ s)); nia.
  - pose proof (rne_shift_bounds n s Hs). pose proof (rne_shift_bounds m s Hs).
    nia.
Qed.

Lemma rne_shift_exact n s : 0 < s → n mod 2 ^ s = 0 → rne_shift n s = n.
Proof.
  intros Hs Hr. unfold rne_shift. cbv zeta. rewrite Hr.
  assert (0 < 2 ^ (s - 1)) as Hh by (apply Z.pow_pos_nonneg; lia).
  apply Z.compare_lt_iff in Hh. rewrite Hh.
  assert (0 < 2 ^ s) by (apply Z.pow_pos_nonneg; lia).
  pose proof (Z.div_mod n (2 ^ s)). lia.
Qed.

Lemma round53_big_bounds n :
  2 ^ 53 ≤ n →
  1 ≤ Z.log2 n - 52 ∧
  2 ^ Z.log2 n ≤ round53 n ≤ 2 ^ (Z.log2 n + 1).
Proof.
  intros Hn. assert (0 < n) as Hpos by (pose proof (Z.pow_pos_nonneg 2 53); lia).
  assert (53 ≤ Z.log2 n) as Hl.
  { apply Z.log2_le_pow2; lia. }
  split; [lia|].
  unfold round53. assert ((n <? 2 ^ 53) = false) as -> by (apply Z.ltb_ge; lia).
  set (s := Z.log2 n - 52).
  pose proof (Z.log2_spec n Hpos) as [Hlo Hhi].
  assert (0 < 2 ^ s) as HP by (apply Z.pow_pos_nonneg; lia).
  assert (2 ^ Z.log2 n = 2 ^ 52 * 2 ^ s) as E1.
  { rewrite <- Z.pow_add_r by lia. f_equal. lia. }
  assert (2 ^ Z.succ (Z.log2 n) = 2 ^ 53 * 2 ^ s) as E2.
  { rewrite <- Z.pow_add_r by lia. f_equal. lia. }
  replace (Z.log2 n + 1) with (Z.succ (Z.log2 n)) by lia.
  assert (2 ^ 52 ≤ n / 2 ^ s) by (apply Z.div_le_lower_bound; lia).
  assert (n / 2 ^ s < 2 ^ 53) by (apply Z.div_lt_upper_bound; lia).
  pose proof (rne_shift_bounds n s ltac:(lia)). nia.
Qed.

Lemma round53_nonneg n : 0 ≤ n → 0 ≤ round53 n.
Proof.
  intros Hn. destruct (Z.lt_ge_cases n (2 ^ 53)) as [Hlt|Hge].
  - unfold round53. apply Z.ltb_lt in Hlt. by rewrite Hlt.
  - pose proof (round53_big_bounds n Hge) as (_ & Hlo & _).
    pose proof (Z.pow_pos_nonneg 2 (Z.log2 n)) as Hp.
    pose proof (Z.log2_nonneg n). lia.
Qed.

Lemma round53_mono n m : 0 ≤ n → n ≤ m → round53 n ≤ round53 m.
Proof.
  intros Hn Hnm.
  destruct (Z.lt_ge_cases m (2 ^ 53)) as [Hm|Hm].
  - unfold round53.
    assert ((n <? 2 ^ 53) = true) as -> by (apply Z.ltb_lt; lia).
    assert ((m <? 2 ^ 53) = true) as -> by (apply Z.ltb_lt; lia). done.
  - pose proof (round53_big_bounds m Hm) as (Hsm & Hlom & _).
    destruct (Z.lt_ge_cases n (2 ^ 53)) as [Hlt|Hge].
    + unfold round53 at 1.
      assert ((n <? 2 ^ 53) = true) as -> by (apply Z.ltb_lt; lia).
      assert (2 ^ 53 ≤ 2 ^ Z.log2 m) by (apply Z.pow_le_mono_r; lia).
      lia.
    + pose proof (round53_big_bounds n Hge) as (Hsn & _ & Hhin).
      assert (Z.log2 n ≤ Z.log2 m) as Hl by (apply Z.log2_le_mono; lia).
      destruct (Z.eq_dec (Z.log2 n) (Z.log2 m)) as [Heq|Hne].
      * unfold round53.
        assert ((n <? 2 ^ 53) = false) as -> by (apply Z.ltb_ge; lia).
        assert ((m <? 2 ^ 53) = false) as -> by (apply Z.ltb_ge; lia).
        rewrite Heq. apply rne_shift_mono; lia.
      * assert (2 ^ (Z.log2 n + 1) ≤ 2 ^ Z.log2 m)
          by (apply Z.pow_le_mono_r; lia).
        lia.
Qed.

Lemma round53_grid m j :
  0 ≤ m ≤ 2 ^ 53 → 0 ≤ j → round53 (m * 2 ^ j) = m * 2 ^ j.
Proof.
  intros Hm Hj. set (n := m * 2 ^ j).
  destruct (Z.lt_ge_cases n (2 ^ 53)) as [Hlt|Hge].
  - unfold round53. apply Z.ltb_lt in Hlt. by rewrite Hlt.
  - unfold round53. assert ((n <? 2 ^ 53) = false) as -> by (apply Z.ltb_ge; lia).
    assert (0 < 2 ^ j) as Hpj by (apply Z.pow_pos_nonneg; lia).
    assert (0 < m) as Hmpos by (pose proof (Z.pow_pos_nonneg 2 53); nia).
    assert (Z.log2 n = j + Z.log2 m) as Hlog by (apply Z.log2_mul_pow2; lia).
    pose proof (round53_big_bounds n Hge) as (Hs & _).
    apply rne_shift_exact; [lia|].
    destruct (Z.eq_dec m (2 ^ 53)) as [->|Hne].
    + rewrite Hlog, Z.log2_pow2 by lia.
      replace (j + 53 - 52) with (j + 1) by lia.
      unfold n. replace (2 ^ 53 * 2 ^ j) with (2 ^ 52 * 2 ^ (j + 1)).
      * apply Z.mod_mul. pose proof (Z.pow_pos_nonneg 2 (j + 1)); lia.
      * rewrite (Z.pow_add_r 2 j 1) by lia. change (2 ^ 53) with (2 ^ 52 * 2). lia.
    + assert (Z.log2 m < 53) as Hlm by (apply Z.log2_lt_pow2; lia).
      set (s := Z.log2 n - 52). assert (s ≤ j) by lia.
      unfold n. replace (2 ^ j) with (2 ^ (j - s) * 2 ^ s).
      * rewrite Z.mul_assoc. apply Z.mod_mul.
        pose proof (Z.pow_pos_nonneg 2 s); lia.
      * rewrite <- Z.pow_add_r by lia. f_equal. lia.
Qed.

Lemma round53s_mono n m : n ≤ m → round53s n ≤ round53s m.
Proof.
  intros Hnm. unfold round53s.
  destruct (Z.ltb_spec n 0); destruct (Z.ltb_spec m 0); try lia.
  - pose proof (round53_mono (- m) (- n)). lia.
  - pose proof (round53_nonneg (- n)). pose proof (round53_nonneg m). lia.
  - by apply round53_mono.
Qed.

Lemma round53s_grid m j :
  Z.abs m ≤ 2 ^ 53 → 0 ≤ j → round53s (m * 2 ^ j) = m * 2 ^ j.
Proof.
  intros Hm Hj. unfold round53s.
  assert (0 < 2 ^ j) as Hpj by (apply Z.pow_pos_nonneg; lia).
  destruct (Z.ltb_spec (m * 2 ^ j) 0).
  - replace (- (m * 2 ^ j)) with ((- m) * 2 ^ j) by lia.
    rewrite round53_grid; lia.
  - apply round53_grid; nia.
Qed.

Lemma Qrne_bounds x : Qfloor x ≤ Qrne x ≤ Qfloor x + 1.
Proof.
  unfold Qrne. cbv zeta.
  destruct (x - inject_Z (Qfloor x) ?= 1 # 2)%Q; [destruct (Z.even _)|..]; lia.
Qed.

Lemma Qrne_comp x y : (x == y)%Q → Qrne x = Qrne y.
Proof.
  intros Hxy. unfold Qrne. cbv zeta.
  rewrite (Qfloor_comp _ _ Hxy).
  assert (x - inject_Z (Qfloor y) == y - inject_Z (Qfloor y))%Q as Heq
    by (by rewrite Hxy).
  by rewrite (Qcompare_comp _ _ Heq _ _ (Qeq_refl (1 # 2))).
Qed.

Lemma Qrne_Z k : Qrne (inject_Z k) = k.
Proof.
  unfold Qrne. cbv zeta. rewrite Qfloor_Z.
  destruct (Qcompare_spec (inject_Z k - inject_Z k) (1 # 2)); [lra|done|lra].
Qed.

Lemma Qrne_mono x y : (x <= y)%Q → Qrne x ≤ Qrne y.
Proof.
  intros Hxy. pose proof (Qfloor_resp_le _ _ Hxy) as Hf.
  destruct (Z.eq_dec (Qfloor x) (Qfloor y)) as [Heq|Hne].
  - unfold Qrne. cbv zeta. rewrite Heq.
    destruct (Qcompare_spec (x - inject_Z (Qfloor y)) (1 # 2));
      destruct (Qcompare_spec (y - inject_Z (Qfloor y)) (1 # 2));
      try destruct (Z.even (Qfloor y)); try lia; lra.
  - pose proof (Qrne_bounds x). pose proof (Qrne_bounds y). lia.
Qed.

Lemma TINY_pos : (0 < inject_Z TINY)%Q.
Proof. change 0%Q with (inject_Z 0). rewrite <- Zlt_Qlt. reflexivity. Qed.

Lemma round_double_comp x y : (x == y)%Q → round_double x = round_double y.
Proof.
  intros Hxy. unfold round_double.
  by rewrite (Qrne_comp (x * inject_Z TINY) (y * inject_Z TINY))
    by (by rewrite Hxy).
Qed.

Lemma round_double_mono x y :
  (x <= y)%Q → (round_double x <= round_double y)%Q.
Proof.
  intros Hxy. unfold round_double. rewrite !Qred_correct.
  pose proof TINY_pos as HT.
  apply Qmult_le_compat_r; [|apply Qlt_le_weak, Qinv_lt_0_compat, HT].
  rewrite <- Zle_Qle. apply round53s_mono, Qrne_mono.
  by apply Qmult_le_compat_r; [|apply Qlt_le_weak].
Qed.

(** Every [m / 2^k] with [|m| <= 2^53] is a double. *)
Lemma round_double_grid m k :
  Z.abs m ≤ 2 ^ 53 → 0 ≤ k ≤ 1074 →
  (round_double (inject_Z m / inject_Z (2 ^ k)) == inject_Z m / inject_Z (2 ^ k))%Q.
Proof.
  intros Hm Hk. unfold round_double. rewrite Qred_correct.
  assert (0 < 2 ^ k) as Hpk by (apply Z.pow_pos_nonneg; lia).
  assert (0 < 2 ^ (1074 - k)) as Hpj by (apply Z.pow_pos_nonneg; lia).
  assert (TINY = 2 ^ (1074 - k) * 2 ^ k) as HT.
  { unfold TINY. rewrite <- Z.pow_add_r by lia. f_equal. lia. }
  assert (¬ inject_Z (2 ^ k) == 0)%Q as Hnz.
  { change 0%Q with (inject_Z 0). rewrite inject_Z_injective. lia. }
  assert (¬ inject_Z (2 ^ (1074 - k)) == 0)%Q as Hnz'.
  { change 0%Q with (inject_Z 0). rewrite inject_Z_injective. lia. }
  rewrite (Qrne_comp _ (inject_Z (m * 2 ^ (1074 - k)))).
  - rewrite Qrne_Z, round53s_grid by lia.
    rewrite HT, !inject_Z_mult. field. done.
  - rewrite HT, !inject_Z_mult. field. done.
Qed.

Lemma round_double_Z n :
  Z.abs n ≤ 2 ^ 53 → (round_double (inject_Z n) == inject_Z n)%Q.
Proof.
  intros Hn. pose proof (round_double_grid n 0 Hn ltac:(lia)) as H.
  change (inject_Z (2 ^ 0)) with 1%Q in H.
  rewrite <- (round_double_comp (inject_Z n / 1) (inject_Z n)) by (field).
  rewrite H. field.
Qed.

(** ** Clock readings *)

Lemma clock_double (t : clock) : (round_double t == t)%Q.
Proof.
  destruct t as [q Hq]. cbn. unfold is_clock in Hq.
  apply andb_prop in Hq as [Hq _]. apply andb_prop in Hq as [Hq _].
  by apply Qeq_bool_iff.
Qed.

Lemma clock_range (t : clock) : (0 <= t)%Q ∧ (t <= inject_Z CLOCK_MAX)%Q.
Proof.
  destruct t as [q Hq]. cbn. unfold is_clock in Hq.
  apply andb_prop in Hq as [Hq H2]. apply andb_prop in Hq as [_ H1].
  split; by apply Qle_bool_iff.
Qed.

Lemma CLOCK_MAX_eq : inject_Z CLOCK_MAX = 1099511627776%Q.
Proof. reflexivity. Qed.

(** Within [2^41] a double is less than [2^-12] away. *)
Lemma round_double_near x :
  (- 2199023255552 <= x)%Q → (x <= 2199023255552)%Q →
  (x - (1 # 4096) < round_double x)%Q ∧ (round_double x < x + (1 # 4096))%Q.
Proof.
  intros Hlo Hhi.
  set (y := (x * 4096)%Q).
  assert (y == x * 4096)%Q as Hy by reflexivity. clearbody y.
  assert (- inject_Z (2 ^ 53) <= y)%Q as Hylo
    by (change (inject_Z (2 ^ 53)) with 9007199254740992%Q; lra).
  assert (y <= inject_Z (2 ^ 53))%Q as Hyhi
    by (change (inject_Z (2 ^ 53)) with 9007199254740992%Q; lra).
  assert (- 2 ^ 53 ≤ Qfloor y) as Hf1.
  { rewrite <- (Qfloor_Z (- 2 ^ 53)). apply Qfloor_resp_le.
    by rewrite inject_Z_opp. }
  assert (Qfloor y ≤ 2 ^ 53) as Hf2.
  { rewrite <- (Qfloor_Z (2 ^ 53)). by apply Qfloor_resp_le. }
  assert (- 2 ^ 53 ≤ Qceiling y) as Hc1.
  { rewrite <- (Qceiling_Z (- 2 ^ 53)). apply Qceiling_resp_le.
    by rewrite inject_Z_opp. }
  assert (Qceiling y ≤ 2 ^ 53) as Hc2.
  { rewrite <- (Qceiling_Z (2 ^ 53)). by apply Qceiling_resp_le. }
  pose proof (round_double_grid (Qfloor y) 12 ltac:(lia) ltac:(lia)) as G1.
  pose proof (round_double_grid (Qceiling y) 12 ltac:(lia) ltac:(lia)) as G2.
  change (inject_Z (2 ^ 12)) with 4096%Q in G1, G2.
  pose proof (Qfloor_le y) as F1. pose proof (Qlt_floor y) as F2.
  pose proof (Qle_ceiling y) as C1. pose proof (Qceiling_lt y) as C2.
  rewrite inject_Z_plus in F2. change (inject_Z 1) with 1%Q in F2.
  replace (Qceiling y - 1) with (Qceiling y + -1) in C2 by lia.
  rewrite inject_Z_plus in C2. change (inject_Z (-1)) with (-1)%Q in C2.
  unfold Qdiv in G1, G2. change (/ 4096)%Q with (1 # 4096)%Q in G1, G2.
  assert (inject_Z (Qfloor y) * (1 # 4096) <= x)%Q as L1 by lra.
  assert (x <= inject_Z (Qceiling y) * (1 # 4096))%Q as L2 by lra.
  apply round_double_mono in L1, L2. rewrite G1 in L1. rewrite G2 in L2.
  split; lra.
Qed.

Lemma round_double_ttl_small ttl :
  Z.abs ttl ≤ 2 ^ 53 → (round_double (inject_Z ttl) == inject_Z ttl)%Q.
Proof. apply round_double_Z. Qed.

Lemma round_double_ttl_big ttl :
  2 ^ 53 ≤ ttl → (9007199254740992 <= round_double (inject_Z ttl))%Q.
Proof.
  intros H. rewrite <- (round_double_Z (2 ^ 53)) by lia.
  apply round_double_mono. by rewrite <- Zle_Qle.
Qed.

Lemma round_double_ttl_neg ttl :
  ttl ≤ - 2 ^ 53 → (round_double (inject_Z ttl) <= - 9007199254740992)%Q.
Proof.
  intros H. rewrite <- (round_double_Z (- 2 ^ 53)) by lia.
  apply round_double_mono. by rewrite <- Zle_Qle.
Qed.

Lemma stored_expiry_ge (now t1 : clock) ttl :
  (now <= t1 + inject_Z ttl)%Q → (now <= stored_expiry t1 ttl)%Q.
Proof.
  intros Hle. unfold stored_expiry.
  pose proof (clock_range now) as [Hn0 Hn1].
  pose proof (clock_range t1) as [Ht0 Ht1].
  rewrite CLOCK_MAX_eq in Hn1, Ht1.
  destruct (Z_le_gt_dec (Z.abs ttl) (2 ^ 53)) as [Hs|Hb].
  - rewrite <- (clock_double now). apply round_double_mono.
    rewrite (round_double_ttl_small ttl Hs). done.
  - destruct (Z_le_gt_dec 0 ttl) as [Hp|Hn].
    + pose proof (round_double_ttl_big ttl ltac:(lia)) as Hf.
      assert (9007199254740992 <= t1 + round_double (inject_Z ttl))%Q as Hx by lra.
      apply round_double_mono in Hx.
      rewrite (round_double_Z (2 ^ 53)) in Hx by lia.
      change (inject_Z (2 ^ 53)) with 9007199254740992%Q in Hx. lra.
    + assert (inject_Z ttl <= inject_Z (- 2 ^ 53))%Q as Hq
        by (rewrite <- Zle_Qle; lia).
      change (inject_Z (- 2 ^ 53)) with (- 9007199254740992)%Q in Hq. lra.
Qed.

Lemma stored_expiry_lt (now t1 : clock) ttl :
  (t1 + inject_Z ttl + (1 # 4096) <= now)%Q → (stored_expiry t1 ttl < now)%Q.
Proof.
  intros Hle. unfold stored_expiry.
  pose proof (clock_range now) as [Hn0 Hn1].
  pose proof (clock_range t1) as [Ht0 Ht1].
  rewrite CLOCK_MAX_eq in Hn1, Ht1.
  assert (round_double (-1) == -1)%Q as Hm1
    by (apply (round_double_Z (-1)); lia).
  destruct (Z_le_gt_dec (Z.abs ttl) (2 ^ 53)) as [Hs|Hb].
  - rewrite (round_double_comp _ (t1 + inject_Z ttl))
      by (by rewrite (round_double_ttl_small ttl Hs)).
    destruct (Qlt_le_dec (t1 + inject_Z ttl) (- 2199023255552)) as [Hlow|Hok].
    + assert (t1 + inject_Z ttl <= -1)%Q as Hx by lra.
      apply round_double_mono in Hx. lra.
    + destruct (round_double_near (t1 + inject_Z ttl)) as [_ Hup]; lra.
  - destruct (Z_le_gt_dec 0 ttl) as [Hp|Hn].
    + assert (inject_Z (2 ^ 53) <= inject_Z ttl)%Q as Hq
        by (rewrite <- Zle_Qle; lia).
      change (inject_Z (2 ^ 53)) with 9007199254740992%Q in Hq. lra.
    + pose proof (round_double_ttl_neg ttl ltac:(lia)) as Hf.
      assert (t1 + round_double (inject_Z ttl) <= -1)%Q as Hx by lra.
      apply round_double_mono in Hx. lra.
Qed.

(** With a [ttl] of at most [2^40] in magnitude the stored expiry is less
    than [2^-12] seconds from the exact sum. *)
Lemma stored_expiry_near (t1 : clock) ttl :
  Z.abs ttl ≤ 2 ^ 40 →
  (t1 + inject_Z ttl - (1 # 4096) < stored_expiry t1 ttl)%Q ∧
  (stored_expiry t1 ttl < t1 + inject_Z ttl + (1 # 4096))%Q.
Proof.
  intros Httl. unfold stored_expiry.
  rewrite (round_double_comp _ (t1 + inject_Z ttl))
    by (rewrite round_double_Z; [done|lia]).
  pose proof (clock_range t1) as [H0 H1]. rewrite CLOCK_MAX_eq in H1.
  assert (- 1099511627776 <= inject_Z ttl)%Q
    by (change (- 1099511627776)%Q with (inject_Z (- 2 ^ 40));
        rewrite <- Zle_Qle; lia).
  assert (inject_Z ttl <= 1099511627776)%Q
    by (change 1099511627776%Q with (inject_Z (2 ^ 40));
        rewrite <- Zle_Qle; lia).
  apply round_double_near; lra.
Qed.

(** No infinity: what [set] stores is a finite double. *)
Lemma stored_expiry_finite (t : clock) ttl :
  Z.abs ttl < DBL_OVERFLOW →
  (- inject_Z DBL_MAX <= stored_expiry t ttl)%Q ∧
  (stored_expiry t ttl <= inject_Z DBL_MAX)%Q.
Proof.
  intros Httl. unfold stored_expiry.
  pose proof (clock_range t) as [H0 H1].
  assert (round_double (inject_Z (DBL_OVERFLOW - 1)) = inject_Z DBL_MAX)
    as Hhi by (vm_compute; reflexivity).
  assert (round_double (inject_Z (- (DBL_OVERFLOW - 1))) = (- inject_Z DBL_MAX)%Q)
    as Hlo by (vm_compute; reflexivity).
  assert (round_double (inject_Z CLOCK_MAX + inject_Z DBL_MAX)
          = inject_Z DBL_MAX) as Hhi' by (vm_compute; reflexivity).
  assert (round_double (- inject_Z DBL_MAX) = (- inject_Z DBL_MAX)%Q)
    as Hlo' by (vm_compute; reflexivity).
  assert (round_double (inject_Z ttl) <= inject_Z DBL_MAX)%Q as Hf1.
  { rewrite <- Hhi. apply round_double_mono. rewrite <- Zle_Qle. lia. }
  assert (- inject_Z DBL_MAX <= round_double (inject_Z ttl))%Q as Hf2.
  { rewrite <- Hlo. apply round_double_mono. rewrite <- Zle_Qle. lia. }
  split.
  - rewrite <- Hlo' at 1. apply round_double_mono. lra.
  - eapply Qle_trans;
      [apply (round_double_mono _ (inject_Z CLOCK_MAX + inject_Z DBL_MAX));
       lra|].
    rewrite Hhi'. apply Qle_refl.
Qed.


(** Rounding a difference of up to [2^53] seconds to a double does not
    cross a whole number. *)
Lemma Qfloor_round_double (x : Q) :
  (0 <= x)%Q → (x <= 9007199254740992)%Q →
  Qfloor x ≤ Qfloor (round_double x) ≤ Qceiling x.
Proof.
  intros H0 H1.
  assert (0 ≤ Qfloor x)
    by (rewrite <- (Qfloor_Z 0); by apply Qfloor_resp_le).
  assert (Qfloor x ≤ 2 ^ 53).
  { rewrite <- (Qfloor_Z (2 ^ 53)). by apply Qfloor_resp_le. }
  assert (0 ≤ Qceiling x).
  { rewrite <- (Qceiling_Z 0). by apply Qceiling_resp_le. }
  assert (Qceiling x ≤ 2 ^ 53).
  { rewrite <- (Qceiling_Z (2 ^ 53)). by apply Qceiling_resp_le. }
  split.
  - rewrite <- (Qfloor_Z (Qfloor x)) at 1. apply Qfloor_resp_le.
    rewrite <- (round_double_Z (Qfloor x)) by lia.
    apply round_double_mono, Qfloor_le.
  - rewrite <- (Qfloor_Z (Qceiling x)). apply Qfloor_resp_le.
    rewrite <- (round_double_Z (Qceiling x)) by lia.
    apply round_double_mono, Qle_ceiling.
Qed.

Lemma round_double_nonneg (x : Q) : (0 <= x)%Q → (0 <= round_double x)%Q.
Proof.
  intros H. rewrite <- (round_double_Z 0) by done.
  by apply round_double_mono.
Qed.

Lemma round_double_nonpos (x : Q) : (x <= 0)%Q → (round_double x <= 0)%Q.
Proof.
  intros H. pose proof (round_double_mono _ _ H) as H'.
  pose proof (round_double_Z 0 ltac:(done)) as H0.
  change (inject_Z 0) with 0%Q in H0. by rewrite H0 in H'.
Qed.


Arguments round_double : simpl never.
Arguments stored_expiry : simpl never.

(** Closes a goal about concrete data by evaluation. *)
Ltac by_evaluation :=
  vm_compute; first [reflexivity | discriminate | exact I | done].

(** ** The expiry test *)

Lemma Qgt_bool_true (a b : Q) : Qgt_bool a b = true ↔ (b < a)%Q.
Proof. unfold Qgt_bool, Qlt. apply Z.ltb_lt. Qed.

Lemma Qgt_bool_false (a b : Q) : Qgt_bool a b = false ↔ (a <= b)%Q.
Proof. unfold Qgt_bool, Qle. apply Z.ltb_ge. Qed.

Lemma expired_true now e : expired now e = true ↔ (expires_at e < now)%Q.
Proof. apply Qgt_bool_true. Qed.

Lemma expired_false now e : expired now e = false ↔ (now <= expires_at e)%Q.
Proof. apply Qgt_bool_false. Qed.

(** ** What each method computes *)

(** The methods written as one case analysis on the dict lookup; the
    [KeyError] branches of [getitem] and [delitem] are gone because every
    subscription is guarded by the membership test before it. *)

Lemma get_run key now (st : store) :
  get key now st =
  Ok (match st !! key with
      | None => (PNone, st)
      | Some e => if expired now e then (PNone, delete key st)
                  else (value e, st)
      end).
Proof.
  unfold get, contains, getitem, delitem, bind, read, write, ret.
  destruct (st !! key) as [e|] eqn:Hk; cbn; [|done].
  rewrite Hk. destruct (expired now e); cbn; [|done].
  by rewrite Hk.
Qed.

Lemma has_key_run key now (st : store) :
  has_key key now st =
  Ok (match st !! key with
      | None => (false, st)
      | Some e => if expired now e then (false, delete key st)
                  else (negb (is_None (value e)), st)
      end).
Proof.
  unfold has_key, bind. rewrite get_run.
  destruct (st !! key) as [e|]; [|done]. by destruct (expired now e).
Qed.

Lemma delete_key_run key (st : store) :
  delete_key key st =
  Ok (match st !! key with
      | None => (false, st)
      | Some _ => (true, delete key st)
      end).
Proof.
  unfold delete_key, contains, delitem, bind, read, write, ret.
  destruct (st !! key) as [e|] eqn:Hk; cbn; [|done]. by rewrite Hk.
Qed.

Lemma get_remaining_ttl_run key now (st : store) :
  get_remaining_ttl key now st =
  Ok (match st !! key with
      | None => None
      | Some e => if expired now e then Some 0
                  else Some (py_int (round_double (expires_at e - now)))
      end, st).
Proof.
  unfold get_remaining_ttl, contains, getitem, bind, read, ret.
  destruct (st !! key) as [e|] eqn:Hk; cbn; [|done].
  rewrite Hk. by destruct (expired now e).
Qed.

Lemma set_run key v ttl t1 t2 (st : store) :
  Z.abs (ttl_or_default ttl) < DBL_OVERFLOW →
  set key v ttl t1 t2 st =
  Ok (tt, <[key := {| value := v;
                      expires_at := stored_expiry t1 (ttl_or_default ttl);
                      created_at := t2 |}]> st).
Proof.
  intros Hr. unfold set, float_of_int.
  apply Z.ltb_lt in Hr. by rewrite Hr.
Qed.

Lemma set_overflow key v ttl t1 t2 (st : store) :
  DBL_OVERFLOW ≤ Z.abs (ttl_or_default ttl) →
  set key v ttl t1 t2 st = Raise OverflowError.
Proof.
  intros Hr. unfold set, float_of_int.
  apply Z.ltb_ge in Hr. by rewrite Hr.
Qed.

Lemma set_inv key v ttl t1 t2 (st st' : store) u :
  set key v ttl t1 t2 st = Ok (u, st') →
  Z.abs (ttl_or_default ttl) < DBL_OVERFLOW ∧
  st' = <[key := {| value := v;
                    expires_at := stored_expiry t1 (ttl_or_default ttl);
                    created_at := t2 |}]> st.
Proof.
  intros Hs. destruct (Z.lt_ge_cases (Z.abs (ttl_or_default ttl)) DBL_OVERFLOW)
    as [Hlt|Hge].
  - rewrite set_run in Hs by done. split; [done|]. congruence.
  - rewrite set_overflow in Hs by done. discriminate.
Qed.

(** ** The sweep of [cleanup_expired] *)

Lemma lookup_delete_all ks (st : store) k :
  delete_all ks st !! k = if decide (k ∈ ks) then None else st !! k.
Proof.
  unfold delete_all. revert st.
  induction ks as [|x ks IH]; intros st; cbn; [done|].
  rewrite IH. destruct (decide (k ∈ ks)) as [Hin|Hnin].
  - rewrite decide_True; [done|]. by right.
  - destruct (decide (k = x)) as [->|Hne].
    + rewrite lookup_delete_eq, decide_True; [done|]. by left.
    + rewrite lookup_delete_ne by done.
      rewrite decide_False; [done|]. by intros [?|?]%elem_of_cons.
Qed.

(** The loop [for key in expired_keys: del self._cache[key]] never meets a
    missing key when the keys are distinct and all stored. *)
Lemma for_each_delitem ks (st : store) :
  NoDup ks → (∀ k, k ∈ ks → is_Some (st !! k)) →
  for_each ks delitem st = Ok (tt, delete_all ks st) ∧
  (size (delete_all ks st) + length ks = size st)%nat.
Proof.
  revert st. induction ks as [|x ks IH]; intros st Hnd Hin.
  { split; [done|]. change (delete_all [] st) with st.
    apply Nat.add_0_r. }
  apply NoDup_cons in Hnd as [Hx Hnd].
  destruct (Hin x) as [e He]; [by left|].
  destruct (IH (delete x st) Hnd) as [Hrun Hsize].
  { intros k Hk. rewrite lookup_delete_ne; [apply Hin; by right|].
    intros ->. done. }
  change (delete_all (x :: ks) st) with (delete_all ks (delete x st)).
  split.
  { cbn [for_each]. unfold bind at 1. unfold delitem at 1, bind, read, write.
    rewrite He. exact Hrun. }
  change (delete_all (x :: ks) st) with (delete_all ks (delete x st)).
  assert (size (delete x st) = pred (size st)) as Hd
    by (apply map_size_delete_Some; eauto).
  assert (size st ≠ 0)%nat.
  { intros Hz. apply map_size_empty_inv in Hz. subst st.
    by rewrite lookup_empty in He. }
  cbn [length]. lia.
Qed.

Lemma elem_of_expired_keys now (st : store) k :
  k ∈ expired_keys now st ↔ ∃ e, st !! k = Some e ∧ expired now e = true.
Proof.
  unfold expired_keys. rewrite list_elem_of_fmap. split.
  - intros [[k' e] [-> [Hp Hin]%list_elem_of_filter]].
    apply elem_of_map_to_list in Hin. exists e. split; [done|].
    cbn in Hp. by apply Is_true_true.
  - intros (e & Hk & He). exists (k, e). split; [done|].
    apply list_elem_of_filter. split; [cbn; by apply Is_true_true|].
    by apply elem_of_map_to_list.
Qed.

Lemma NoDup_expired_keys now (st : store) : NoDup (expired_keys now st).
Proof.
  unfold expired_keys.
  eapply sublist_NoDup; [apply (NoDup_fst_map_to_list st)|].
  apply fmap_sublist, sublist_filter.
Qed.

Lemma length_filter_snd {A B} (P : B → Prop) `{!∀ x, Decision (P x)}
    (l : list (A * B)) :
  length (filter (λ kv, P kv.2) l).*1 = length (filter P l.*2).
Proof.
  induction l as [|[a b] l IH]; [done|].
  rewrite fmap_cons. cbn [snd].
  rewrite !filter_cons. cbn [snd]. destruct (decide (P b)); cbn; lia.
Qed.

Lemma lookup_swept now (st : store) k :
  swept now st !! k =
  match st !! k with
  | Some e => if expired now e then None else Some e
  | None => None
  end.
Proof.
  unfold swept. rewrite lookup_delete_all.
  destruct (decide (k ∈ expired_keys now st)) as [Hin|Hnin].
  - apply elem_of_expired_keys in Hin as (e & -> & ->). done.
  - destruct (st !! k) as [e|] eqn:Hk; [|done].
    destruct (expired now e) eqn:He; [|done].
    exfalso. apply Hnin, elem_of_expired_keys. eauto.
Qed.

Lemma cleanup_expired_run now (st : store) :
  cleanup_expired now st =
  Ok (Z.of_nat (length (expired_keys now st)), swept now st) ∧
  (size (swept now st) + length (expired_keys now st) = size st)%nat.
Proof.
  destruct (for_each_delitem (expired_keys now st) st) as [Hrun Hsize].
  { apply NoDup_expired_keys. }
  { intros k (e & -> & _)%elem_of_expired_keys. eauto. }
  split; [|exact Hsize].
  unfold cleanup_expired, bind, read, ret. cbn. by rewrite Hrun.
Qed.

(** ** [get] *)

(** C1.  [get(key)] returns the absent marker [None] when no entry is
    stored for the key, and when the clock reading strictly exceeds the
    entry's [expires_at]; in the second case the entry is removed from the
    store by the call and every other entry stays.  Otherwise, and so also
    when the reading equals [expires_at], it returns the stored value and
    leaves the store as it was.  On a fresh instance every key is absent. *)
Theorem get_absent_expired_or_value key now (st : store) :
  (st !! key = None → get key now st = Ok (PNone, st)) ∧
  (∀ e, st !! key = Some e → (expires_at e < now)%Q →
     ∃ st', get key now st = Ok (PNone, st') ∧ st' !! key = None ∧
            ∀ k, k ≠ key → st' !! k = st !! k) ∧
  (∀ e, st !! key = Some e → (now <= expires_at e)%Q →
     get key now st = Ok (value e, st)) ∧
  (∀ e, st !! key = Some e → (now == expires_at e)%Q →
     get key now st = Ok (value e, st)) ∧
  get key now init = Ok (PNone, init).
Proof.
  rewrite !get_run. repeat split.
  - by intros ->.
  - intros e He Hlt. apply expired_true in Hlt. rewrite He, Hlt.
    exists (delete key st). split; [done|]. split.
    + apply lookup_delete_eq.
    + intros k Hk. by apply lookup_delete_ne.
  - intros e He Hle. apply expired_false in Hle. by rewrite He, Hle.
  - intros e He Heq.
    assert (expired now e = false) as Hex
      by (apply expired_false; rewrite Heq; apply Qle_refl).
    by rewrite He, Hex.
Qed.

Lemma get_absent_expired_or_value_witness :
  get "paris_metric" (clock_at 11) oslo_store = Ok (PNone, oslo_store) ∧
  (∃ st', get "oslo_metric" (clock_at 11) oslo_store = Ok (PNone, st') ∧
          st' !! "oslo_metric" = None ∧
          ∀ k, k ≠ "oslo_metric" → st' !! k = oslo_store !! k) ∧
  get "oslo_metric" (clock_at 9) oslo_store = Ok (PStr "rain", oslo_store) ∧
  get "oslo_metric" (clock_at 10) oslo_store = Ok (PStr "rain", oslo_store).
Proof.
  pose proof (get_absent_expired_or_value "paris_metric" (clock_at 11)
                oslo_store) as (Hnone & _).
  pose proof (get_absent_expired_or_value "oslo_metric" (clock_at 11)
                oslo_store) as (_ & Hexp & _).
  pose proof (get_absent_expired_or_value "oslo_metric" (clock_at 9)
                oslo_store) as (_ & _ & Hlive & _).
  pose proof (get_absent_expired_or_value "oslo_metric" (clock_at 10)
                oslo_store) as (_ & _ & _ & Hedge & _).
  split; [|split; [|split]].
  - apply Hnone. reflexivity.
  - apply (Hexp (Entry (PStr "rain") 10 0)); by_evaluation.
  - apply (Hlive (Entry (PStr "rain") 10 0)); by_evaluation.
  - apply (Hedge (Entry (PStr "rain") 10 0)); by_evaluation.
Defined.

(** ** [delete] *)

(** C2, as the code has it.  [delete(key)] never looks at the clock: it
    returns [True] exactly when an entry is stored for the key, expired or
    not, and removes it; it returns [False] exactly when none is stored.
    The call after it on the same key returns [False] and changes nothing. *)
Theorem delete_true_iff_stored key (st : store) :
  ∃ b st',
    delete_key key st = Ok (b, st') ∧
    (b = true ↔ is_Some (st !! key)) ∧
    (b = false ↔ st !! key = None) ∧
    st' = delete key st ∧
    st' !! key = None ∧
    (∀ k, k ≠ key → st' !! k = st !! k) ∧
    delete_key key st' = Ok (false, st').
Proof.
  exists (bool_decide (is_Some (st !! key))), (delete key st).
  rewrite !delete_key_run, lookup_delete_eq.
  destruct (st !! key) as [e|] eqn:Hk; cbn.
  - split_and!; eauto; try done.
    intros k Hne. by apply lookup_delete_ne.
  - rewrite delete_id by done. split_and!; try done.
Qed.

(** C2, the claim refuted: an entry written with [ttl=1] at time 0 is long
    expired at time 5, no [get] has evicted it, and [delete] returns
    [True] for it. *)
Lemma delete_expired_entry_returns_true :
  ∃ st e,
    set "k" (PInt 1) (Some 1) (clock_at 0) (clock_at 0) init = Ok (tt, st) ∧
    st !! "k" = Some e ∧
    (expires_at e < clock_at 5)%Q ∧
    delete_key "k" st = Ok (true, init).
Proof.
  exists {[ "k" := Entry (PInt 1) 1 0 ]}, (Entry (PInt 1) 1 0).
  split_and!; by_evaluation.
Qed.

(** ** Entries over a run of calls *)

Lemma clear_run (st : store) : clear st = Ok (tt, ∅).
Proof. reflexivity. Qed.

Lemma get_stats_run now (st : store) :
  get_stats now st =
  Ok ({| total_entries := Z.of_nat (size st);
         active_entries :=
           Z.of_nat (size st)
           - Z.of_nat (length (filter (λ e, Is_true (expired now e))
                                      (map_to_list st).*2));
         expired_entries :=
           Z.of_nat (length (filter (λ e, Is_true (expired now e))
                                    (map_to_list st).*2));
         cache_keys := (map_to_list st).*1 |}, st).
Proof. reflexivity. Qed.

(** A call leaves behind only entries that were there before it, except
    for the one entry a [set] writes. *)
Lemma exec_lookup c (st st' : store) k e :
  exec c st = Ok (tt, st') →
  st' !! k = Some e →
  st !! k = Some e ∨
  ∃ v ttl t1 t2,
    c = CallSet k v ttl t1 t2 ∧
    e = {| value := v;
           expires_at := stored_expiry t1 (ttl_or_default ttl);
           created_at := t2 |}.
Proof.
  destruct c as [key t|key v ttl t1 t2|key| |t|t|key t|key t];
    unfold exec, bind.
  - rewrite get_run.
    destruct (st !! key) eqn:?; [destruct (expired t _)|]; cbn;
      intros [= <-] Hk; auto.
    left. by apply lookup_delete_Some in Hk as [_ ?].
  - intros [_ ->]%set_inv Hk.
    destruct (decide (key = k)) as [->|Hne].
    + rewrite lookup_insert_eq in Hk. right. exists v, ttl, t1, t2.
      split; [done|]. congruence.
    + rewrite lookup_insert_ne in Hk by done. by left.
  - rewrite delete_key_run.
    destruct (st !! key) eqn:?; cbn; intros [= <-] Hk; auto.
    left. by apply lookup_delete_Some in Hk as [_ ?].
  - intros [= <-] Hk. by rewrite lookup_empty in Hk.
  - destruct (cleanup_expired_run t st) as [-> _]. cbn. intros [= <-] Hk.
    rewrite lookup_swept in Hk. left.
    destruct (st !! k) as [e'|]; [|done]. by destruct (expired t e').
  - rewrite get_stats_run. cbn. intros [= <-] Hk. by left.
  - rewrite has_key_run.
    destruct (st !! key) eqn:?; [destruct (expired t _)|]; cbn;
      intros [= <-] Hk; auto.
    left. by apply lookup_delete_Some in Hk as [_ ?].
  - rewrite get_remaining_ttl_run. cbn. intros [= <-] Hk. by left.
Qed.

(** C3, as the code has it.  [set] reads the clock twice.  [expires_at]
    is the double [t + ttl] computed from the first reading [t]: the double
    nearest to the sum of [t] and [ttl] converted to a double.
    [created_at] is the second reading.  Whatever calls follow, a stored
    entry keeps these two fields as the [set] call that wrote it computed
    them.  So [expires_at] is [created_at + ttl], as a double, when the two
    readings of that call coincide, and at most that when the second
    reading is not before the first; and for a [ttl] of magnitude up to
    [2^40] it is less than [2^-12] seconds away from the exact sum of the
    first reading and [ttl]. *)
Theorem entry_fields_from_creating_set (st : store) g k e :
  reachable st g →
  st !! k = Some e →
  ∃ o, g !! k = Some o ∧
       expires_at e
         = round_double (o_t_exp o + round_double (inject_Z (o_ttl o))) ∧
       created_at e = o_t_created o ∧
       ((o_t_exp o == o_t_created o)%Q →
          expires_at e
            = round_double (created_at e + round_double (inject_Z (o_ttl o)))) ∧
       ((o_t_exp o <= o_t_created o)%Q →
          (expires_at e
             <= round_double
                  (created_at e + round_double (inject_Z (o_ttl o))))%Q) ∧
       (Z.abs (o_ttl o) ≤ 2 ^ 40 →
          (o_t_exp o + inject_Z (o_ttl o) - (1 # 4096) < expires_at e)%Q ∧
          (expires_at e < o_t_exp o + inject_Z (o_ttl o) + (1 # 4096))%Q).
Proof.
  intros Hreach. revert k e.
  assert (∀ k e, st !! k = Some e →
            ∃ o, g !! k = Some o ∧
                 expires_at e = stored_expiry (o_t_exp o) (o_ttl o) ∧
                 created_at e = o_t_created o) as Hinv.
  { induction Hreach as [|c st g st' Hreach IH Hexec]; intros k e Hk.
    - unfold init in Hk. by rewrite lookup_empty in Hk.
    - destruct (exec_lookup _ _ _ _ _ Hexec Hk)
        as [Hold|(v & ttl & t1 & t2 & -> & ->)].
      + destruct (IH _ _ Hold) as (o & Ho & Hexp & Hcr).
        destruct c as [?|key v ttl t1 t2|?| |?|?|?|?]; cbn; eauto.
        destruct (decide (key = k)) as [->|Hne].
        * apply set_inv in Hexec as [_ ->].
          rewrite lookup_insert_eq in Hk. injection Hk as <-.
          rewrite lookup_insert_eq. eexists. split; [done|].
          by destruct ttl.
        * rewrite lookup_insert_ne by done. eauto.
      + cbn. rewrite lookup_insert_eq. eexists. split; [done|].
        by destruct ttl. }
  intros k e Hk. destruct (Hinv k e Hk) as (o & Ho & Hexp & Hcr).
  exists o. unfold stored_expiry in Hexp. split_and!; try done.
  - intros Heq. rewrite Hexp, Hcr. apply round_double_comp. by rewrite Heq.
  - intros Hle. rewrite Hexp, Hcr. apply round_double_mono. lra.
  - intros Httl. rewrite Hexp.
    by apply (stored_expiry_near (o_t_exp o)).
Qed.

Lemma entry_fields_from_creating_set_witness :
  ∃ o, ghost_step (CallSet "k" (PInt 1) (Some 60) (clock_at 1000)
                     (clock_at 1001)) ∅ !! "k" = Some o ∧
       expires_at (Entry (PInt 1) 1060 1001)
         = round_double (o_t_exp o + round_double (inject_Z (o_ttl o))) ∧
       created_at (Entry (PInt 1) 1060 1001) = o_t_created o ∧
       ((o_t_exp o == o_t_created o)%Q →
          expires_at (Entry (PInt 1) 1060 1001)
            = round_double (created_at (Entry (PInt 1) 1060 1001)
                            + round_double (inject_Z (o_ttl o)))) ∧
       ((o_t_exp o <= o_t_created o)%Q →
          (expires_at (Entry (PInt 1) 1060 1001)
             <= round_double (created_at (Entry (PInt 1) 1060 1001)
                              + round_double (inject_Z (o_ttl o))))%Q) ∧
       (Z.abs (o_ttl o) ≤ 2 ^ 40 →
          (o_t_exp o + inject_Z (o_ttl o) - (1 # 4096)
             < expires_at (Entry (PInt 1) 1060 1001))%Q ∧
          (expires_at (Entry (PInt 1) 1060 1001)
             < o_t_exp o + inject_Z (o_ttl o) + (1 # 4096))%Q).
Proof.
  apply (entry_fields_from_creating_set
           {[ "k" := Entry (PInt 1) 1060 1001 ]}
           (ghost_step (CallSet "k" (PInt 1) (Some 60) (clock_at 1000)
                          (clock_at 1001)) ∅) "k").
  - apply (reach_step (CallSet "k" (PInt 1) (Some 60) (clock_at 1000)
                         (clock_at 1001)) init ∅).
    + apply reach_init.
    + by_evaluation.
  - by_evaluation.
Defined.

(** C3, the claim refuted: the clock advances by a millisecond between the
    two readings of one [set("k", 1, ttl=60)], and the entry it stores has
    [expires_at = 1060.0] while [created_at] is [1000.001]: [expires_at] is
    not [created_at + 60], neither exactly nor as the float sum. *)
Lemma expires_at_differs_from_created_at_plus_ttl :
  ∃ st e,
    set "k" (PInt 1) (Some 60) (clock_at 1000) (clock_at (1000 + (1 # 1000)))
      init = Ok (tt, st) ∧
    st !! "k" = Some e ∧
    (expires_at e == 1060)%Q ∧
    (1000 < created_at e)%Q ∧
    ¬ (expires_at e == created_at e + inject_Z 60)%Q ∧
    ¬ (expires_at e
       == round_double (created_at e + round_double (inject_Z 60)))%Q.
Proof.
  exists {[ "k" := Entry (PInt 1) 1060 (clock_at (1000 + (1 # 1000))) ]},
         (Entry (PInt 1) 1060 (clock_at (1000 + (1 # 1000)))).
  split_and!; try by_evaluation; intros H; vm_compute in H; discriminate H.
Qed.

(** ** [set] followed by a read *)

Lemma round_double_900 : round_double (inject_Z 900) = 900%Q.
Proof. vm_compute. reflexivity. Qed.

(** An omitted [ttl] is the default of 900 seconds. *)
Lemma set_default_ttl key v t1 t2 (st : store) :
  set key v None t1 t2 st = set key v (Some 900) t1 t2 st ∧
  set key v None t1 t2 st =
  Ok (tt, <[key := {| value := v; expires_at := round_double (t1 + 900);
                      created_at := t2 |}]> st).
Proof.
  split; [reflexivity|]. rewrite set_run by (vm_compute; reflexivity).
  change (ttl_or_default None) with 900. unfold stored_expiry.
  by rewrite round_double_900.
Qed.

(** A read no later than [ttl] seconds after the first clock reading of a
    [set] that returned: [get] gives back the value, and [has_key] says
    whether that value is other than [None]. *)
Lemma set_then_get_and_has_key key v ttl (t1 t2 now : clock)
    (st st' : store) :
  set key v ttl t1 t2 st = Ok (tt, st') →
  (now <= t1 + inject_Z (ttl_or_default ttl))%Q →
  get key now st' = Ok (v, st') ∧
  has_key key now st' = Ok (negb (is_None v), st').
Proof.
  intros [_ ->]%set_inv Hnow.
  rewrite get_run, has_key_run, lookup_insert_eq.
  assert (expired now
            {| value := v;
               expires_at := stored_expiry t1 (ttl_or_default ttl);
               created_at := t2 |} = false) as ->
    by (by apply expired_false, stored_expiry_ge).
  done.
Qed.

(** C4, the failing input.  [set("k", None, ttl=60)] and then, with no
    time passing, [has_key("k")]: the entry is stored and not expired,
    [get] returns the stored [None], and [has_key] returns [False]. *)
Theorem has_key_false_after_set_None :
  ∃ st e,
    set "k" PNone (Some 60) (clock_at 1000) (clock_at 1000) init
      = Ok (tt, st) ∧
    st !! "k" = Some e ∧
    expired (clock_at 1000) e = false ∧
    get "k" (clock_at 1000) st = Ok (PNone, st) ∧
    has_key "k" (clock_at 1000) st = Ok (false, st).
Proof.
  exists {[ "k" := Entry PNone 1060 1000 ]}, (Entry PNone 1060 1000).
  split_and!; by_evaluation.
Qed.

(** C5.  [set(key, value, ttl)] on a key that already has an entry leaves
    one entry for the key, built from the arguments and clock readings of
    this call alone: the value, [expires_at = now + ttl] as the float
    addition of line 55 computes it from the first reading and the [ttl]
    passed, and [created_at] are all new and nothing of the old entry is
    kept.  That [expires_at] is the double nearest to the exact sum when
    [ttl] is at most [2^53] in magnitude, and less than [2^-12] seconds
    from it when [ttl] is at most [2^40].  The number of entries does not
    change, the other entries are untouched, and the keys the store lists
    are pairwise distinct.  A key set with [ttl=1] and then with [ttl=900]
    is returned by every [get] up to 900 seconds after the second call. *)
Theorem set_replaces_entry key v ttl (t1 t2 : clock) (st st' : store) old :
  st !! key = Some old →
  set key v (Some ttl) t1 t2 st = Ok (tt, st') →
  st' !! key
    = Some {| value := v;
              expires_at := round_double (t1 + round_double (inject_Z ttl));
              created_at := t2 |} ∧
  (Z.abs ttl ≤ 2 ^ 53 →
     st' !! key
       = Some {| value := v;
                 expires_at := round_double (t1 + inject_Z ttl);
                 created_at := t2 |}) ∧
  (Z.abs ttl ≤ 2 ^ 40 →
     ∃ e, st' !! key = Some e ∧
          (t1 + inject_Z ttl - (1 # 4096) < expires_at e)%Q ∧
          (expires_at e < t1 + inject_Z ttl + (1 # 4096))%Q) ∧
  size st' = size st ∧
  (∀ k, k ≠ key → st' !! k = st !! k) ∧
  (∀ now, ∃ s, get_stats now st' = Ok (s, st') ∧ NoDup (cache_keys s) ∧
               total_entries s = Z.of_nat (size st)) ∧
  (∀ v1 v2 ta ta' tb tb' (st0 st1 st2 : store) (now : clock),
     set key v1 (Some 1) ta ta' st0 = Ok (tt, st1) →
     set key v2 (Some 900) tb tb' st1 = Ok (tt, st2) →
     (now <= tb + 900)%Q →
     get key now st2 = Ok (v2, st2) ∧ size st2 = size st1).
Proof.
  intros Hold [_ ->]%set_inv. change (ttl_or_default (Some ttl)) with ttl.
  unfold stored_expiry. split_and!.
  - apply lookup_insert_eq.
  - intros Httl. rewrite lookup_insert_eq. do 2 f_equal.
    apply round_double_comp. by rewrite round_double_Z.
  - intros Httl. eexists. split; [apply lookup_insert_eq|]. cbn [expires_at].
    by apply (stored_expiry_near t1).
  - apply map_size_insert_Some. eauto.
  - intros k Hne. by apply lookup_insert_ne.
  - intros now. rewrite get_stats_run. eexists. split; [reflexivity|].
    cbn. split.
    + apply NoDup_fst_map_to_list.
    + f_equal. apply map_size_insert_Some. eauto.
  - intros v1 v2 ta ta' tb tb' st0 st1 st2 now Hs1 Hs2 Hnow.
    split.
    + apply (set_then_get_and_has_key _ _ _ _ _ _ _ _ Hs2). exact Hnow.
    + apply set_inv in Hs1 as [_ ->]. apply set_inv in Hs2 as [_ ->].
      apply map_size_insert_Some. rewrite lookup_insert_eq. eauto.
Qed.

Lemma set_replaces_entry_witness :
  oslo_store_refreshed !! "oslo_metric"
  = Some {| value := PStr "sun";
            expires_at :=
              round_double (clock_at 20 + round_double (inject_Z 900));
            created_at := clock_at 21 |} ∧
  get "oslo_metric" (clock_at 12) oslo_store_refreshed
  = Ok (PStr "sun", oslo_store_refreshed).
Proof.
  assert (oslo_store !! "oslo_metric" = Some (Entry (PStr "rain") 10 0))
    as Hold by reflexivity.
  assert (set "oslo_metric" (PStr "sun") (Some 900) (clock_at 20)
            (clock_at 21) oslo_store = Ok (tt, oslo_store_refreshed))
    as Hset by by_evaluation.
  pose proof (set_replaces_entry "oslo_metric" (PStr "sun") 900
                (clock_at 20) (clock_at 21) oslo_store oslo_store_refreshed
                (Entry (PStr "rain") 10 0) Hold Hset)
    as (Hnew & _ & _ & _ & _ & _ & Htwice).
  split; [exact Hnew|].
  refine (proj1 (Htwice (PStr "rain") (PStr "sun") (clock_at 9)
                   (clock_at 10) (clock_at 20) (clock_at 21) init
                   {[ "oslo_metric" := Entry (PStr "rain") 10 10 ]}
                   oslo_store_refreshed (clock_at 12) _ _ _));
    by_evaluation.
Defined.

(** ** [cleanup_expired] *)

Lemma size_filter_expired now (st : store) :
  size (filter (λ kv : string * entry, Is_true (expired now kv.2)) st)
  = length (expired_keys now st).
Proof.
  rewrite map_filter_alt, map_size_list_to_map.
  - unfold expired_keys. by rewrite length_fmap.
  - apply NoDup_expired_keys.
Qed.

(** C6.  [cleanup_expired()] never raises.  It removes every entry whose
    [expires_at] is strictly before the reading of the clock it takes, and
    no other: an entry with [expires_at] at or after that reading is still
    stored, unchanged, and [get] returns its value until it expires.  The
    number returned is the number of entries removed, which is the number
    of expired entries that were stored. *)
Theorem cleanup_expired_removes_exactly_expired now (st : store) :
  ∃ n st',
    cleanup_expired now st = Ok (n, st') ∧
    (∀ k e, st !! k = Some e → (expires_at e < now)%Q → st' !! k = None) ∧
    (∀ k e, st !! k = Some e → (now <= expires_at e)%Q →
       st' !! k = Some e ∧
       ∀ now' : clock, (now' <= expires_at e)%Q →
               get k now' st' = Ok (value e, st')) ∧
    (∀ k, st !! k = None → st' !! k = None) ∧
    n = Z.of_nat (size st) - Z.of_nat (size st') ∧
    n = Z.of_nat
          (size (filter (λ kv : string * entry, Is_true (expired now kv.2)) st)).
Proof.
  destruct (cleanup_expired_run now st) as [Hrun Hsize].
  exists (Z.of_nat (length (expired_keys now st))), (swept now st).
  split_and!; [exact Hrun|..].
  - intros k e Hk Hlt. apply expired_true in Hlt.
    by rewrite lookup_swept, Hk, Hlt.
  - intros k e Hk Hle. apply expired_false in Hle.
    assert (swept now st !! k = Some e) as Hk'
      by (by rewrite lookup_swept, Hk, Hle).
    split; [done|]. intros now' Hle'. apply expired_false in Hle'.
    by rewrite get_run, Hk', Hle'.
  - intros k Hk. by rewrite lookup_swept, Hk.
  - lia.
  - by rewrite size_filter_expired.
Qed.

Lemma cleanup_expired_removes_exactly_expired_witness :
  ∃ n st',
    cleanup_expired (clock_at 12) two_city_store = Ok (n, st') ∧
    st' !! "oslo_metric" = None ∧
    st' !! "rome_metric" = Some (Entry (PStr "sun") 30 5) ∧
    get "rome_metric" (clock_at 12) st' = Ok (PStr "sun", st') ∧
    st' !! "paris_metric" = None ∧
    n = 1.
Proof.
  destruct (cleanup_expired_removes_exactly_expired (clock_at 12)
              two_city_store)
    as (n & st' & Hrun & Hgone & Hkept & Hmiss & Hn & _).
  exists n, st'. split; [exact Hrun|].
  destruct (Hkept "rome_metric" (Entry (PStr "sun") 30 5)) as [Hrome Hget];
    [by_evaluation..|].
  split; [apply (Hgone "oslo_metric" (Entry (PStr "rain") 10 0));
          by_evaluation|].
  split; [exact Hrome|].
  split; [apply Hget; by_evaluation|].
  split; [apply Hmiss; by_evaluation|].
  assert (Ok (n, st') = Ok (1, {[ "rome_metric" := Entry (PStr "sun") 30 5 ]}))
    as Heq by (rewrite <- Hrun; by_evaluation).
  congruence.
Defined.

(** ** [get_remaining_ttl] *)

Lemma py_int_nonneg (x : Q) :
  (0 <= x)%Q → py_int x = Qfloor x ∧ 0 ≤ Qfloor x.
Proof.
  destruct x as [n d]. unfold Qle, py_int. cbn. intros Hn.
  assert (0 ≤ n) by lia. split.
  - apply Z.quot_div_nonneg; lia.
  - apply Z.div_pos; lia.
Qed.

Lemma Qfloor_nonpos (x : Q) : (x <= 0)%Q → Qfloor x ≤ 0.
Proof.
  intros Hx. rewrite <- (Qfloor_Z 0). by apply Qfloor_resp_le.
Qed.

(** The remaining time of an entry that [set] stored with [ttl=60], read
    no earlier than the [set]. *)
Lemma remaining_after_set_60 (t1 now : clock) (w : Q) :
  (t1 <= now)%Q → (now <= t1 + w)%Q → (w <= 1)%Q →
  (round_double (60 - w - (1 # 4096))
     <= round_double (stored_expiry t1 60 - now))%Q ∧
  (round_double (stored_expiry t1 60 - now) <= 121 # 2)%Q.
Proof.
  intros Hlo Hhi Hw.
  destruct (stored_expiry_near t1 60) as [Hs1 Hs2]; [done|].
  change (inject_Z 60) with 60%Q in Hs1, Hs2. split.
  - apply round_double_mono. lra.
  - pose proof (round_double_grid 121 1 ltac:(done) ltac:(lia)) as Hg.
    change (inject_Z 121 / inject_Z (2 ^ 1))%Q with (121 / 2)%Q in Hg.
    assert (121 / 2 == 121 # 2)%Q as Heq by reflexivity.
    rewrite <- Heq, <- Hg. apply round_double_mono. rewrite Heq. lra.
Qed.

(** C7.  [get_remaining_ttl(key)] never changes the store.  It returns
    [None] when no entry is stored for the key.  When one is stored it
    returns [max(0, expires_at - now)] cut down to whole seconds, the
    difference being the double that the subtraction of line 161 gives: 0
    for an entry that is expired and still stored, which stays stored, and
    otherwise, for a difference of up to [2^53] seconds, a whole number
    between the exact difference rounded down and rounded up.  After a
    [set] with [ttl=60] the answer is 59 or 60 for half a second, and from
    58 to 60 for the first second. *)
Theorem get_remaining_ttl_clamped_floor key (now : clock) (st : store) :
  (st !! key = None → get_remaining_ttl key now st = Ok (None, st)) ∧
  (∀ e, st !! key = Some e →
     get_remaining_ttl key now st
     = Ok (Some (Z.max 0 (Qfloor (round_double (expires_at e - now)))), st)) ∧
  (∀ e, st !! key = Some e → (expires_at e < now)%Q →
     get_remaining_ttl key now st = Ok (Some 0, st) ∧
     st !! key = Some e) ∧
  (∀ e, st !! key = Some e → (now <= expires_at e)%Q →
     (expires_at e - now <= 9007199254740992)%Q →
     ∃ r, get_remaining_ttl key now st = Ok (Some r, st) ∧
          Qfloor (expires_at e - now) ≤ r ≤ Qceiling (expires_at e - now)) ∧
  (∀ v t1 t2 (st0 : store),
     set key v (Some 60) t1 t2 st0 = Ok (tt, st) →
     (t1 <= now)%Q → (now <= t1 + (1 # 2))%Q →
     ∃ r, get_remaining_ttl key now st = Ok (Some r, st) ∧ 59 ≤ r ≤ 60) ∧
  (∀ v t1 t2 (st0 : store),
     set key v (Some 60) t1 t2 st0 = Ok (tt, st) →
     (t1 <= now)%Q → (now <= t1 + 1)%Q →
     ∃ r, get_remaining_ttl key now st = Ok (Some r, st) ∧ 58 ≤ r ≤ 60).
Proof.
  assert (∀ e, st !! key = Some e →
     get_remaining_ttl key now st
     = Ok (Some (Z.max 0 (Qfloor (round_double (expires_at e - now)))), st))
    as Hmain.
  { intros e He. rewrite get_remaining_ttl_run, He.
    destruct (expired now e) eqn:Hex.
    - apply expired_true in Hex.
      assert (Qfloor (round_double (expires_at e - now)) ≤ 0)
        by (apply Qfloor_nonpos, round_double_nonpos; lra).
      do 3 f_equal. lia.
    - apply expired_false in Hex.
      destruct (py_int_nonneg (round_double (expires_at e - now))) as [-> Hge];
        [apply round_double_nonneg; lra|].
      do 3 f_equal. lia. }
  assert (∀ v t1 t2 (st0 : store) (w : Q) lo,
     set key v (Some 60) t1 t2 st0 = Ok (tt, st) →
     (t1 <= now)%Q → (now <= t1 + w)%Q → (w <= 1)%Q →
     (inject_Z lo <= 60 - w - (1 # 4096))%Q → 0 ≤ lo ≤ 60 →
     ∃ r, get_remaining_ttl key now st = Ok (Some r, st) ∧ lo ≤ r ≤ 60)
    as Hfresh.
  { intros v t1 t2 st0 w lo [_ ->]%set_inv Hlo Hhi Hw Hr Hpos.
    eexists. split; [apply Hmain, lookup_insert_eq|]. cbn [expires_at].
    change (ttl_or_default (Some 60)) with 60.
    destruct (remaining_after_set_60 t1 now w Hlo Hhi Hw) as [H1 H2].
    apply round_double_mono in Hr.
    rewrite (round_double_Z lo) in Hr by lia.
    pose proof (Qle_trans _ _ _ Hr H1) as H3.
    apply Qfloor_resp_le in H3, H2. rewrite Qfloor_Z in H3.
    change (Qfloor (121 # 2)) with 60 in H2. lia. }
  split_and!.
  - intros Hk. by rewrite get_remaining_ttl_run, Hk.
  - exact Hmain.
  - intros e He Hlt. split; [|done].
    apply expired_true in Hlt. by rewrite get_remaining_ttl_run, He, Hlt.
  - intros e He Hle Hbig. eexists. split; [apply (Hmain e He)|].
    destruct (Qfloor_round_double (expires_at e - now)) as [H1 H2];
      [lra|done|].
    assert (0 ≤ Qfloor (expires_at e - now)).
    { rewrite <- (Qfloor_Z 0). apply Qfloor_resp_le.
      change (inject_Z 0) with 0%Q. lra. }
    lia.
  - intros v t1 t2 st0 Hset Hlo Hhi.
    apply (Hfresh v t1 t2 st0 (1 # 2)%Q 59 Hset Hlo Hhi);
      [done|done|lia].
  - intros v t1 t2 st0 Hset Hlo Hhi.
    apply (Hfresh v t1 t2 st0 1%Q 58 Hset Hlo Hhi);
      [apply Qle_refl|done|lia].
Qed.

Lemma get_remaining_ttl_clamped_floor_witness :
  get_remaining_ttl "paris_metric" (clock_at 12) two_city_store
    = Ok (None, two_city_store) ∧
  get_remaining_ttl "rome_metric" (clock_at (25 # 2)) two_city_store
    = Ok (Some 17, two_city_store) ∧
  get_remaining_ttl "oslo_metric" (clock_at 12) two_city_store
    = Ok (Some 0, two_city_store) ∧
  two_city_store !! "oslo_metric" = Some (Entry (PStr "rain") 10 0) ∧
  (∃ r, get_remaining_ttl "rome_metric" (clock_at (25 # 2)) two_city_store
        = Ok (Some r, two_city_store) ∧ 17 ≤ r ≤ 18) ∧
  (∃ r, get_remaining_ttl "k" (clock_at (1 # 2))
          {[ "k" := Entry (PInt 1) 60 0 ]}
        = Ok (Some r, {[ "k" := Entry (PInt 1) 60 0 ]}) ∧
        59 ≤ r ≤ 60) ∧
  (∃ r, get_remaining_ttl "k" (clock_at 1)
          {[ "k" := Entry (PInt 1) 60 0 ]}
        = Ok (Some r, {[ "k" := Entry (PInt 1) 60 0 ]}) ∧
        58 ≤ r ≤ 60).
Proof.
  pose proof (get_remaining_ttl_clamped_floor "paris_metric" (clock_at 12)
                two_city_store) as (Hnone & _).
  pose proof (get_remaining_ttl_clamped_floor "rome_metric"
                (clock_at (25 # 2)) two_city_store)
    as (_ & Hval & _ & Hbetween & _).
  pose proof (get_remaining_ttl_clamped_floor "oslo_metric" (clock_at 12)
                two_city_store) as (_ & _ & Hzero & _).
  pose proof (get_remaining_ttl_clamped_floor "k" (clock_at (1 # 2))
                {[ "k" := Entry (PInt 1) 60 0 ]})
    as (_ & _ & _ & _ & Hfresh & _).
  pose proof (get_remaining_ttl_clamped_floor "k" (clock_at 1)
                {[ "k" := Entry (PInt 1) 60 0 ]})
    as (_ & _ & _ & _ & _ & Hsecond).
  split; [apply Hnone; by_evaluation|].
  split; [apply (Hval (Entry (PStr "sun") 30 5)); by_evaluation|].
  destruct (Hzero (Entry (PStr "rain") 10 0)) as [H0 Hstill];
    [by_evaluation..|].
  split; [exact H0|]. split; [exact Hstill|].
  split; [apply (Hbetween (Entry (PStr "sun") 30 5)); by_evaluation|].
  split.
  - apply (Hfresh (PInt 1) (clock_at 0) (clock_at 0) init); by_evaluation.
  - apply (Hsecond (PInt 1) (clock_at 0) (clock_at 0) init); by_evaluation.
Defined.

(** A reading one second after a [set] with [ttl=60] can give 58: the
    stored expiry is the sum rounded to a double, here rounded down. *)
Example get_remaining_ttl_58_one_second_after_set :
  let t1 := clock_at (2147483618 + (1 # 4194304)) in
  let now := clock_at (2147483619 + (1 # 4194304)) in
  ∃ st,
    (seconds t1 == 2147483618 + (1 # 4194304))%Q ∧
    (seconds now == seconds t1 + 1)%Q ∧
    set "k" (PInt 1) (Some 60) t1 t1 init = Ok (tt, st) ∧
    st !! "k" = Some (Entry (PInt 1) 2147483678 t1) ∧
    get_remaining_ttl "k" now st = Ok (Some 58, st).
Proof.
  exists {[ "k" := Entry (PInt 1) 2147483678
                     (2147483618 + (1 # 4194304)) ]}.
  split_and!; by_evaluation.
Qed.

(** ** [get_stats] *)

Lemma elem_of_keys (st : store) k :
  k ∈ (map_to_list st).*1 ↔ is_Some (st !! k).
Proof.
  rewrite list_elem_of_fmap. split.
  - intros [[k' e] [-> Hin]]. apply elem_of_map_to_list in Hin. eauto.
  - intros [e He]. exists (k, e). split; [done|].
    by apply elem_of_map_to_list.
Qed.

(** C8.  [get_stats()] returns the store it was given, unchanged, and never
    raises.  [total_entries] counts every stored entry, expired or not;
    [expired_entries] counts the stored entries whose [expires_at] is
    strictly before the clock reading; [active_entries] is the difference,
    which is the number of entries a sweep at that reading would leave;
    [cache_keys] lists each stored key once, expired or not, and nothing
    else. *)
Theorem get_stats_snapshot now (st : store) :
  ∃ s,
    get_stats now st = Ok (s, st) ∧
    total_entries s = Z.of_nat (size st) ∧
    expired_entries s
    = Z.of_nat
        (size (filter (λ kv : string * entry, Is_true (expired now kv.2)) st)) ∧
    active_entries s = total_entries s - expired_entries s ∧
    active_entries s = Z.of_nat (size (swept now st)) ∧
    0 ≤ expired_entries s ≤ total_entries s ∧
    (∀ k, k ∈ cache_keys s ↔ is_Some (st !! k)) ∧
    NoDup (cache_keys s) ∧
    Z.of_nat (length (cache_keys s)) = total_entries s.
Proof.
  rewrite get_stats_run. eexists. split; [reflexivity|]. cbn.
  destruct (cleanup_expired_run now st) as [_ Hsize].
  rewrite size_filter_expired.
  rewrite <- (length_filter_snd (λ e, Is_true (expired now e))
                (map_to_list st)).
  change ((filter (λ kv : string * entry, Is_true (expired now kv.2))
             (map_to_list st)).*1) with (expired_keys now st).
  split_and!; try done; try lia.
  - apply elem_of_keys.
  - apply NoDup_fst_map_to_list.
  - by rewrite length_fmap, length_map_to_list.
Qed.

(** ** Exceptions, and [clear] *)

(** C9, as the code has it.  With a [ttl] that converts to a double, no
    method raises on any store, for any key, value and clock readings:
    each returns one of its documented results.  After [clear()] the store
    is empty: [get_stats()] reports no entry and [get] returns [None] for
    every key. *)
Theorem no_method_raises_within_double_range
    key v ttl now t1 t2 (st : store) :
  Z.abs (ttl_or_default ttl) < DBL_OVERFLOW →
  ¬ raises (get key now st) ∧
  ¬ raises (set key v ttl t1 t2 st) ∧
  ¬ raises (delete_key key st) ∧
  ¬ raises (clear st) ∧
  ¬ raises (cleanup_expired now st) ∧
  ¬ raises (has_key key now st) ∧
  ¬ raises (get_remaining_ttl key now st) ∧
  ¬ raises (get_stats now st) ∧
  ∃ st', clear st = Ok (tt, st') ∧
         st' = ∅ ∧
         (∃ s, get_stats now st' = Ok (s, st') ∧ total_entries s = 0) ∧
         (∀ k t, get k t st' = Ok (PNone, st')).
Proof.
  intros Httl.
  rewrite get_run, (set_run _ _ _ _ _ _ Httl), delete_key_run, clear_run,
    has_key_run, get_remaining_ttl_run, get_stats_run.
  destruct (cleanup_expired_run now st) as [-> _]. cbn.
  split_and!; try (by intros []).
  exists ∅. split_and!; try done.
  eexists. split; [reflexivity|]. cbn. by rewrite map_size_empty.
Qed.

Lemma no_method_raises_within_double_range_witness :
  ¬ raises (get "oslo_metric" (clock_at 12) two_city_store) ∧
  ¬ raises (set "oslo_metric" PNone None (clock_at 12) (clock_at 12)
              two_city_store) ∧
  ¬ raises (delete_key "oslo_metric" two_city_store) ∧
  ¬ raises (clear two_city_store) ∧
  ¬ raises (cleanup_expired (clock_at 12) two_city_store) ∧
  ¬ raises (has_key "oslo_metric" (clock_at 12) two_city_store) ∧
  ¬ raises (get_remaining_ttl "oslo_metric" (clock_at 12) two_city_store) ∧
  ¬ raises (get_stats (clock_at 12) two_city_store) ∧
  ∃ st', clear two_city_store = Ok (tt, st') ∧
         st' = ∅ ∧
         (∃ s, get_stats (clock_at 12) st' = Ok (s, st') ∧
               total_entries s = 0) ∧
         (∀ k t, get k t st' = Ok (PNone, st')).
Proof.
  apply (no_method_raises_within_double_range
           "oslo_metric" PNone None (clock_at 12) (clock_at 12) (clock_at 12)
           two_city_store).
  by_evaluation.
Defined.

(** C9, the claim refuted: [ttl] is an integer, [2**1024], and
    [time.time() + ttl] raises [OverflowError] before anything is stored. *)
Lemma set_raises_for_huge_ttl :
  set "k" (PInt 1) (Some (2 ^ 1024)) (clock_at 0) (clock_at 0) init
    = Raise OverflowError ∧
  raises (set "k" (PInt 1) (Some (2 ^ 1024)) (clock_at 0) (clock_at 0) init).
Proof. split; by_evaluation. Qed.

(** ** A cached [None], and falsy payloads in the handler *)




(** * Further properties of the cache *)

(** ** Reads repeat *)

(** X1.  A [get] repeated at the same clock reading, or at an earlier one,
    returns what the first returned and changes nothing further; and once
    [get] has returned [None] for a key it returns [None] at every later
    reading too, as long as no [set] comes between. *)
Theorem get_repeats key now (st st' : store) v :
  get key now st = Ok (v, st') →
  (∀ now' : clock, (now' <= now)%Q → get key now' st' = Ok (v, st')) ∧
  (v = PNone → ∀ now', ∃ st'', get key now' st' = Ok (PNone, st'')).
Proof.
  rewrite get_run. intros Hget.
  destruct (st !! key) as [e|] eqn:Hk.
  - destruct (expired now e) eqn:Hex; injection Hget as <- <-.
    + split; intros; [|eexists]; by rewrite get_run, lookup_delete_eq.
    + apply expired_false in Hex. split.
      * intros now' Hle. rewrite get_run, Hk.
        assert (expired now' e = false) as -> by (apply expired_false; lra).
        done.
      * intros Hv now'. rewrite get_run, Hk, Hv.
        destruct (expired now' e); eauto.
  - injection Hget as <- <-.
    split; intros; [|eexists]; by rewrite get_run, Hk.
Qed.

Lemma get_repeats_witness :
  (∀ now' : clock, (now' <= clock_at 9)%Q →
           get "oslo_metric" now' oslo_store = Ok (PStr "rain", oslo_store)) ∧
  (PStr "rain" = PNone →
   ∀ now', ∃ st'', get "oslo_metric" now' oslo_store = Ok (PNone, st'')).
Proof.
  apply (get_repeats "oslo_metric" (clock_at 9) oslo_store oslo_store
           (PStr "rain")).
  by_evaluation.
Defined.

(** ** [set] and [delete] compose *)

(** X2.  [set] on a key that has no entry, followed by [delete] of that
    key, gives back the store as it was before the [set], and [delete]
    returns [True]. *)
Theorem set_then_delete_restores key v ttl t1 t2 (st st1 : store) :
  st !! key = None →
  set key v ttl t1 t2 st = Ok (tt, st1) →
  delete_key key st1 = Ok (true, st).
Proof.
  intros Hnone [_ ->]%set_inv.
  rewrite delete_key_run, lookup_insert_eq.
  by rewrite delete_insert_eq, delete_id.
Qed.

Lemma set_then_delete_restores_witness :
  delete_key "rome_metric" two_city_store = Ok (true, oslo_store).
Proof.
  apply (set_then_delete_restores "rome_metric" (PStr "sun") (Some 25)
           (clock_at 5) (clock_at 5) oslo_store two_city_store);
    by_evaluation.
Defined.

(** X3.  Only the last [set] of a key counts: two [set] calls on one key
    leave the store the second call alone would have left.  [set] calls on
    different keys can be swapped. *)
Theorem set_last_write_wins key v1 v2 ttl1 ttl2 ta ta' tb tb'
    (st st1 st2 : store) :
  set key v1 ttl1 ta ta' st = Ok (tt, st1) →
  set key v2 ttl2 tb tb' st1 = Ok (tt, st2) →
  set key v2 ttl2 tb tb' st = Ok (tt, st2) ∧
  ∀ key' v' ttl' tc tc' (st3 : store),
    key' ≠ key →
    set key' v' ttl' tc tc' st2 = Ok (tt, st3) →
    ∃ st2', set key' v' ttl' tc tc' st = Ok (tt, st2') ∧
            set key v2 ttl2 tb tb' st2' = Ok (tt, st3).
Proof.
  intros [_ ->]%set_inv [Hr2 ->]%set_inv. split.
  - by rewrite (set_run _ _ _ _ _ _ Hr2), insert_insert_eq.
  - intros key' v' ttl' tc tc' st3 Hne [Hr3 ->]%set_inv.
    eexists. split; [by apply set_run|].
    rewrite (set_run _ _ _ _ _ _ Hr2), insert_insert_eq.
    by rewrite insert_insert_ne.
Qed.

Lemma set_last_write_wins_witness :
  set "oslo_metric" (PStr "sun") (Some 900) (clock_at 20) (clock_at 21) init
    = Ok (tt, oslo_store_refreshed) ∧
  ∀ key' v' ttl' tc tc' (st3 : store),
    key' ≠ "oslo_metric" →
    set key' v' ttl' tc tc' oslo_store_refreshed = Ok (tt, st3) →
    ∃ st2', set key' v' ttl' tc tc' init = Ok (tt, st2') ∧
            set "oslo_metric" (PStr "sun") (Some 900)
              (clock_at 20) (clock_at 21) st2'
              = Ok (tt, st3).
Proof.
  apply (set_last_write_wins "oslo_metric" (PStr "rain") (PStr "sun")
           (Some 10) (Some 900) (clock_at 0) (clock_at 0)
           (clock_at 20) (clock_at 21) init oslo_store
           oslo_store_refreshed); by_evaluation.
Defined.

(** ** Sweeps *)

Lemma expired_keys_swept now now' (st : store) :
  (now' <= now)%Q → expired_keys now' (swept now st) = [].
Proof.
  intros Hle. apply elem_of_nil_inv. intros k Hk.
  apply elem_of_expired_keys in Hk as (e & He & Hex).
  rewrite lookup_swept in He.
  destruct (st !! k) as [e'|]; [|done].
  destruct (expired now e') eqn:Hex'; [done|]. injection He as ->.
  apply expired_true in Hex. apply expired_false in Hex'. lra.
Qed.

Lemma length_expired_values now (st : store) :
  length (filter (λ e, Is_true (expired now e)) (map_to_list st).*2)
  = length (expired_keys now st).
Proof.
  unfold expired_keys.
  by rewrite <- (length_filter_snd (λ e, Is_true (expired now e))
                   (map_to_list st)).
Qed.

(** X4.  A sweep leaves nothing for a second sweep: [cleanup_expired()]
    called again with the same clock reading, or an earlier one, removes
    nothing and returns 0. *)
Theorem cleanup_expired_twice (now now' : clock) (st st' : store) n :
  cleanup_expired now st = Ok (n, st') →
  (now' <= now)%Q →
  cleanup_expired now' st' = Ok (0, st').
Proof.
  destruct (cleanup_expired_run now st) as [-> _]. intros [= <- <-] Hle.
  destruct (cleanup_expired_run now' (swept now st)) as [-> _].
  unfold swept at 2. by rewrite expired_keys_swept.
Qed.

Lemma cleanup_expired_twice_witness :
  cleanup_expired (clock_at 11)
    {[ "rome_metric" := Entry (PStr "sun") 30 5 ]}
  = Ok (0, {[ "rome_metric" := Entry (PStr "sun") 30 5 ]}).
Proof.
  apply (cleanup_expired_twice (clock_at 12) (clock_at 11) two_city_store
           {[ "rome_metric" := Entry (PStr "sun") 30 5 ]} 1);
    by_evaluation.
Defined.

(** X5.  [get_stats()] and [cleanup_expired()] count the same entries:
    at one clock reading, the sweep returns the [expired_entries] that
    [get_stats()] reported before it, and [get_stats()] after it reports
    no expired entry and as [total_entries] the [active_entries] of
    before. *)
Theorem cleanup_expired_matches_stats now (st st' : store) s s' n :
  get_stats now st = Ok (s, st) →
  cleanup_expired now st = Ok (n, st') →
  get_stats now st' = Ok (s', st') →
  n = expired_entries s ∧
  expired_entries s' = 0 ∧
  total_entries s' = active_entries s ∧
  active_entries s' = active_entries s ∧
  ∀ k, k ∈ cache_keys s' → k ∈ cache_keys s.
Proof.
  rewrite !get_stats_run.
  destruct (cleanup_expired_run now st) as [-> Hsize].
  intros [= <-] [= <- <-] [= <-]. cbn.
  rewrite !length_expired_values, expired_keys_swept by apply Qle_refl.
  cbn. split_and!; try lia.
  intros k [e He]%elem_of_keys. apply elem_of_keys.
  rewrite lookup_swept in He. destruct (st !! k); [eauto|done].
Qed.

Lemma cleanup_expired_matches_stats_witness :
  1 = expired_entries (Stats 2 1 1 ["oslo_metric"; "rome_metric"]) ∧
  expired_entries (Stats 1 1 0 ["rome_metric"]) = 0 ∧
  total_entries (Stats 1 1 0 ["rome_metric"])
    = active_entries (Stats 2 1 1 ["oslo_metric"; "rome_metric"]) ∧
  active_entries (Stats 1 1 0 ["rome_metric"])
    = active_entries (Stats 2 1 1 ["oslo_metric"; "rome_metric"]) ∧
  ∀ k, k ∈ cache_keys (Stats 1 1 0 ["rome_metric"]) →
       k ∈ cache_keys (Stats 2 1 1 ["oslo_metric"; "rome_metric"]).
Proof.
  apply (cleanup_expired_matches_stats (clock_at 12) two_city_store
           {[ "rome_metric" := Entry (PStr "sun") 30 5 ]}); by_evaluation.
Defined.

(** ** What only [set] can do *)

(** X6.  No call other than [set] adds an entry or alters one: after
    [get], [delete], [clear], [cleanup_expired], [get_stats], [has_key] or
    [get_remaining_ttl] every stored entry was stored before, unchanged,
    and the store has not grown. *)
Theorem only_set_adds_entries c (st st' : store) :
  (∀ key v ttl t1 t2, c ≠ CallSet key v ttl t1 t2) →
  exec c st = Ok (tt, st') →
  st' ⊆ st ∧ (size st' ≤ size st)%nat.
Proof.
  intros Hc Hexec.
  assert (st' ⊆ st) as Hsub.
  { apply map_subseteq_spec. intros k e Hk.
    destruct (exec_lookup _ _ _ _ _ Hexec Hk)
      as [Hold|(v & ttl & t1 & t2 & -> & _)]; [done|].
    by destruct (Hc k v ttl t1 t2). }
  split; [done|]. by apply map_subseteq_size.
Qed.

Lemma only_set_adds_entries_witness :
  ({[ "rome_metric" := Entry (PStr "sun") 30 5 ]} : store) ⊆ two_city_store ∧
  (size ({[ "rome_metric" := Entry (PStr "sun") 30 5 ]} : store)
   ≤ size two_city_store)%nat.
Proof.
  apply (only_set_adds_entries (CallGet "oslo_metric" (clock_at 12))).
  - discriminate.
  - by_evaluation.
Defined.

(** ** Zero and negative [ttl] *)



(** ** [get_remaining_ttl] against [get] *)

(** X8.  The number [get_remaining_ttl] returns is never negative and
    never grows as the clock advances.  When it is positive the entry is
    not expired: [get] at the same clock reading returns the stored value
    and keeps the entry. *)
Theorem remaining_ttl_positive_means_live key now (st st' : store) r :
  get_remaining_ttl key now st = Ok (Some r, st') →
  0 ≤ r ∧
  (0 < r → ∃ e, st !! key = Some e ∧ get key now st = Ok (value e, st)) ∧
  (∀ (now' : clock) r' st'',
     (now <= now')%Q →
     get_remaining_ttl key now' st = Ok (Some r', st'') → r' ≤ r).
Proof.
  rewrite get_remaining_ttl_run.
  destruct (st !! key) as [e|] eqn:Hk; [|done].
  destruct (expired now e) eqn:Hex.
  - intros [= <- <-]. apply expired_true in Hex. split_and!; [done|lia|].
    intros now' r' st'' Hle. rewrite get_remaining_ttl_run, Hk.
    assert (expired now' e = true) as -> by (apply expired_true; lra).
    by intros [= <- _].
  - intros [= <- <-]. apply expired_false in Hex.
    destruct (py_int_nonneg (round_double (expires_at e - now)))
      as [-> Hge]; [apply round_double_nonneg; lra|].
    split_and!; [done|..].
    + intros _. exists e. split; [done|].
      apply expired_false in Hex. by rewrite get_run, Hk, Hex.
    + intros now' r' st'' Hle. rewrite get_remaining_ttl_run, Hk.
      destruct (expired now' e) eqn:Hex'; intros [= <- _]; [done|].
      apply expired_false in Hex'.
      destruct (py_int_nonneg (round_double (expires_at e - now')))
        as [-> _]; [apply round_double_nonneg; lra|].
      apply Qfloor_resp_le, round_double_mono. lra.
Qed.

Lemma remaining_ttl_positive_means_live_witness :
  0 ≤ 17 ∧
  (0 < 17 → ∃ e, two_city_store !! "rome_metric" = Some e ∧
                 get "rome_metric" (clock_at (25 # 2)) two_city_store
                   = Ok (value e, two_city_store)) ∧
  (∀ (now' : clock) r' st'',
     (clock_at (25 # 2) <= now')%Q →
     get_remaining_ttl "rome_metric" now' two_city_store = Ok (Some r', st'') →
     r' ≤ 17).
Proof.
  apply (remaining_ttl_positive_means_live "rome_metric" (clock_at (25 # 2))
           two_city_store two_city_store 17).
  by_evaluation.
Defined.

(** * Properties of the handlers *)

(** ** [get_weather] *)

(** The handler after the cache has answered. *)
Lemma get_weather_run
    (str_lower : string → string)
    (upstream : string → string → result pyval)
    city units (t_get t_exp t_created : clock) (w : world) cached (st1 : store) :
  get (cache_key_of str_lower city units) t_get (cache w) = Ok (cached, st1) →
  get_weather str_lower upstream city units t_get t_exp t_created w =
  if truthy cached then
    ((cached, 200), {| cache := st1; upstream_calls := upstream_calls w |})
  else
    match upstream city units with
    | Raise _ =>
        (internal_error,
         {| cache := st1;
            upstream_calls := upstream_calls w ++ [(city, units)] |})
    | Ok wd =>
        match subscript wd "status" with
        | Raise _ =>
            (internal_error,
             {| cache := st1;
                upstream_calls := upstream_calls w ++ [(city, units)] |})
        | Ok status =>
            if eq_str status "error" then
              ((wd, 404),
               {| cache := st1;
                  upstream_calls := upstream_calls w ++ [(city, units)] |})
            else
              ((wd, 200),
               {| cache :=
                    <[cache_key_of str_lower city units :=
                        {| value := wd;
                           expires_at := round_double (t_exp + 900);
                           created_at := t_created |}]> st1;
                  upstream_calls := upstream_calls w ++ [(city, units)] |})
        end
    end.
Proof.
  intros Hget. unfold get_weather. rewrite Hget.
  destruct (truthy cached); [done|].
  destruct (upstream city units) as [wd|]; [|done].
  destruct (subscript wd "status") as [status|]; [|done].
  destruct (eq_str status "error"); [done|].
  rewrite set_run by by_evaluation.
  change (ttl_or_default (Some 900)) with 900. unfold stored_expiry.
  by rewrite round_double_900.
Qed.

Lemma subscript_Ok_truthy wd k x : subscript wd k = Ok x → truthy wd = true.
Proof.
  destruct wd as [| | | | | |d]; try discriminate. by destruct d.
Qed.

Lemma get_weather_hit_run
    (str_lower : string → string)
    (upstream : string → string → result pyval)
    city units (t_get t_exp t_created : clock) (w : world) e :
  cache w !! cache_key_of str_lower city units = Some e →
  (t_get <= expires_at e)%Q →
  truthy (value e) = true →
  get_weather str_lower upstream city units t_get t_exp t_created w
  = ((value e, 200), w).
Proof.
  intros Hk Hlive Htruthy.
  rewrite (get_weather_run _ _ _ _ _ _ _ _ (value e) (cache w)).
  - rewrite Htruthy. by destruct w.
  - apply expired_false in Hlive. by rewrite get_run, Hk, Hlive.
Qed.

(** X9.  A cache hit: when the cache holds, for the key of the request, an
    entry that has not expired and whose payload is truthy, [get_weather]
    answers 200 with exactly that payload, does not call the weather
    service and leaves the cache as it is. *)
Theorem get_weather_cache_hit
    (str_lower : string → string)
    (upstream : string → string → result pyval)
    city units (t_get t_exp t_created : clock) (w : world) e :
  cache w !! cache_key_of str_lower city units = Some e →
  (t_get <= expires_at e)%Q →
  truthy (value e) = true →
  get_weather str_lower upstream city units t_get t_exp t_created w
  = ((value e, 200), w).
Proof. apply get_weather_hit_run. Qed.

Lemma get_weather_cache_hit_witness :
  get_weather lower (λ _ _, Raise KeyError) "Oslo" "metric"
    (clock_at 9) (clock_at 9) (clock_at 9)
    {| cache := oslo_store; upstream_calls := [] |}
  = ((PStr "rain", 200), {| cache := oslo_store; upstream_calls := [] |}).
Proof.
  apply (get_weather_cache_hit lower (λ _ _, Raise KeyError) "Oslo" "metric"
           (clock_at 9) (clock_at 9) (clock_at 9)
           {| cache := oslo_store; upstream_calls := [] |}
           (Entry (PStr "rain") 10 0)); by_evaluation.
Defined.

(** X10.  A miss that the weather service answers with a payload whose
    ['status'] is not ['error']: [get_weather] answers 200 with that
    payload, has called the service once, and has stored the payload
    under the key of the request with, as [expires_at], the double that
    [time.time() + 900] gives, which is less than [2^-12] seconds from
    the exact sum.  Up to 900 seconds after the clock reading of that
    [set], every further [get_weather] for the same city and units, and
    every [get_cached_weather], answers 200 with the same payload and
    calls no service. *)
Theorem get_weather_miss_then_hit
    (str_lower : string → string)
    (upstream : string → string → result pyval)
    city units t_get (t_exp t_created : clock) (w : world) cached
    (st1 : store) wd status :
  get (cache_key_of str_lower city units) t_get (cache w) = Ok (cached, st1) →
  truthy cached = false →
  upstream city units = Ok wd →
  subscript wd "status" = Ok status →
  eq_str status "error" = false →
  ∃ w',
    get_weather str_lower upstream city units t_get t_exp t_created w
      = ((wd, 200), w') ∧
    upstream_calls w' = upstream_calls w ++ [(city, units)] ∧
    cache w' !! cache_key_of str_lower city units
      = Some {| value := wd; expires_at := round_double (t_exp + 900);
                created_at := t_created |} ∧
    (t_exp + 900 - (1 # 4096) < round_double (t_exp + 900))%Q ∧
    (round_double (t_exp + 900) < t_exp + 900 + (1 # 4096))%Q ∧
    (∀ upstream' (t_get' t_exp' t_created' : clock),
       (t_get' <= t_exp + 900)%Q →
       get_weather str_lower upstream' city units t_get' t_exp' t_created' w'
         = ((wd, 200), w')) ∧
    (∀ t_get' : clock,
       (t_get' <= t_exp + 900)%Q →
       get_cached_weather str_lower city (Some units) t_get' w'
         = ((wd, 200), w')).
Proof.
  intros Hget Hfalsy Hup Hst Herr.
  rewrite (get_weather_run _ _ _ _ _ _ _ _ _ _ Hget), Hfalsy, Hup, Hst, Herr.
  eexists. split; [reflexivity|]. cbn [cache upstream_calls].
  pose proof (subscript_Ok_truthy _ _ _ Hst) as Htruthy.
  assert (round_double (t_exp + 900) = stored_expiry t_exp 900) as Hexp
    by (unfold stored_expiry; by rewrite round_double_900).
  destruct (stored_expiry_near t_exp 900) as [Hlo Hhi]; [done|].
  change (inject_Z 900) with 900%Q in Hlo, Hhi.
  assert (∀ t_get' : clock, (t_get' <= t_exp + 900)%Q →
            (t_get' <= round_double (t_exp + 900))%Q) as Hlive
    by (intros t_get' Hle; rewrite Hexp; by apply stored_expiry_ge).
  split_and!; [done|apply lookup_insert_eq|by rewrite Hexp..| |].
  - intros upstream' t_get' t_exp' t_created' Hle.
    apply (get_weather_hit_run _ _ _ _ _ _ _ _
             {| value := wd; expires_at := round_double (t_exp + 900);
                created_at := t_created |});
      [apply lookup_insert_eq|by apply Hlive|done].
  - intros t_get' Hle. unfold get_cached_weather.
    cbn [default cache upstream_calls].
    rewrite get_run, lookup_insert_eq.
    assert (expired t_get'
              {| value := wd; expires_at := round_double (t_exp + 900);
                 created_at := t_created |} = false) as ->
      by (by apply expired_false, Hlive).
    cbn [value]. by rewrite Htruthy.
Qed.

Lemma get_weather_miss_then_hit_witness :
  ∃ w',
    get_weather lower sample_upstream "Oslo" "metric"
      (clock_at 40) (clock_at 41) (clock_at 42)
      {| cache := init; upstream_calls := [] |}
      = ((PDict [("status", PStr "success"); ("city", PStr "Oslo")], 200), w') ∧
    upstream_calls w' = [] ++ [("Oslo", "metric")] ∧
    cache w' !! cache_key_of lower "Oslo" "metric"
      = Some {| value := PDict [("status", PStr "success");
                                ("city", PStr "Oslo")];
                expires_at := round_double (clock_at 41 + 900);
                created_at := clock_at 42 |} ∧
    (clock_at 41 + 900 - (1 # 4096) < round_double (clock_at 41 + 900))%Q ∧
    (round_double (clock_at 41 + 900) < clock_at 41 + 900 + (1 # 4096))%Q ∧
    (∀ upstream' (t_get' t_exp' t_created' : clock),
       (t_get' <= clock_at 41 + 900)%Q →
       get_weather lower upstream' "Oslo" "metric" t_get' t_exp' t_created' w'
         = ((PDict [("status", PStr "success"); ("city", PStr "Oslo")], 200),
            w')) ∧
    (∀ t_get' : clock,
       (t_get' <= clock_at 41 + 900)%Q →
       get_cached_weather lower "Oslo" (Some "metric") t_get' w'
         = ((PDict [("status", PStr "success"); ("city", PStr "Oslo")], 200),
            w')).
Proof.
  apply (get_weather_miss_then_hit lower sample_upstream "Oslo" "metric"
           (clock_at 40) (clock_at 41) (clock_at 42)
           {| cache := init; upstream_calls := [] |} PNone init
           (PDict [("status", PStr "success"); ("city", PStr "Oslo")])
           (PStr "success")); by_evaluation.
Defined.

Lemma get_shrinks key now (st st1 : store) cached :
  get key now st = Ok (cached, st1) →
  st1 ⊆ st ∧ ∀ k, k ≠ key → st1 !! k = st !! k.
Proof.
  rewrite get_run.
  destruct (st !! key) as [e|]; [destruct (expired now e)|];
    intros [= <- <-]; split; try done.
  - apply delete_subseteq.
  - intros k Hne. by apply lookup_delete_ne.
Qed.

Lemma get_falsy_stays_falsy key now (st st1 : store) cached :
  get key now st = Ok (cached, st1) →
  truthy cached = false →
  ∀ now', ∃ cached' st2,
    get key now' st1 = Ok (cached', st2) ∧ truthy cached' = false.
Proof.
  rewrite get_run. intros Hget Hfalsy now'. rewrite get_run.
  destruct (st !! key) as [e|] eqn:Hk;
    [destruct (expired now e)|]; injection Hget as <- <-.
  - rewrite lookup_delete_eq. eauto.
  - rewrite Hk. destruct (expired now' e); eauto.
  - rewrite Hk. eauto.
Qed.

(** X11.  A miss that the weather service answers with a payload whose
    ['status'] is ['error']: [get_weather] answers 404 with that payload
    and stores nothing, so the cache holds no entry it did not hold
    before, and the next [get_weather] for the same city and units calls
    the service again. *)
Theorem get_weather_error_not_cached
    (str_lower : string → string)
    (upstream : string → string → result pyval)
    city units (t_get t_exp t_created : clock) (w : world) cached (st1 : store)
    wd status :
  get (cache_key_of str_lower city units) t_get (cache w) = Ok (cached, st1) →
  truthy cached = false →
  upstream city units = Ok wd →
  subscript wd "status" = Ok status →
  eq_str status "error" = true →
  ∃ w',
    get_weather str_lower upstream city units t_get t_exp t_created w
      = ((wd, 404), w') ∧
    cache w' ⊆ cache w ∧
    upstream_calls w' = upstream_calls w ++ [(city, units)] ∧
    ∀ upstream' t_get' t_exp' t_created',
      upstream_calls
        (get_weather str_lower upstream' city units t_get' t_exp' t_created' w').2
      = upstream_calls w' ++ [(city, units)].
Proof.
  intros Hget Hfalsy Hup Hst Herr.
  rewrite (get_weather_run _ _ _ _ _ _ _ _ _ _ Hget), Hfalsy, Hup, Hst, Herr.
  eexists. split; [reflexivity|]. cbn [cache upstream_calls].
  split_and!; [by apply (get_shrinks _ _ _ _ _ Hget)|done|].
  intros upstream' t_get' t_exp' t_created'.
  destruct (get_falsy_stays_falsy _ _ _ _ _ Hget Hfalsy t_get')
    as (cached' & st2 & Hget' & Hfalsy').
  rewrite (get_weather_run _ _ _ _ _ _ _ _ cached' st2) by exact Hget'.
  rewrite Hfalsy'. cbn [upstream_calls].
  destruct (upstream' city units) as [wd'|]; [|done].
  destruct (subscript wd' "status") as [s'|]; [|done].
  by destruct (eq_str s' "error").
Qed.

Lemma get_weather_error_not_cached_witness :
  ∃ w',
    get_weather lower (λ _ _, Ok (WeatherService.error_response "no such city"))
      "Atlantis" "metric" (clock_at 12) (clock_at 12) (clock_at 12)
      {| cache := two_city_store; upstream_calls := [] |}
    = ((WeatherService.error_response "no such city", 404), w') ∧
    cache w' ⊆ two_city_store ∧
    upstream_calls w' = [] ++ [("Atlantis", "metric")] ∧
    ∀ upstream' t_get' t_exp' t_created',
      upstream_calls
        (get_weather lower upstream' "Atlantis" "metric" t_get' t_exp' t_created'
           w').2
      = upstream_calls w' ++ [("Atlantis", "metric")].
Proof.
  apply (get_weather_error_not_cached lower
           (λ _ _, Ok (WeatherService.error_response "no such city"))
           "Atlantis" "metric" (clock_at 12) (clock_at 12) (clock_at 12)
           {| cache := two_city_store; upstream_calls := [] |}
           PNone two_city_store
           (WeatherService.error_response "no such city") (PStr "error"));
    by_evaluation.
Defined.

(** X12.  Whatever the cache holds and whatever the weather service does,
    [get_weather] answers with status 200, 404 or 500, calls the service
    at most once, and touches no cache entry other than the one for the
    key of the request.  It answers 500 only after the service raised or
    returned something without a ['status']; a service that always
    returns a dict with a ['status'] never leads to 500. *)
Theorem get_weather_status_codes
    (str_lower : string → string)
    (upstream : string → string → result pyval)
    city units (t_get t_exp t_created : clock) (w : world) :
  let r := get_weather str_lower upstream city units t_get t_exp t_created w in
  (r.1.2 = 200 ∨ r.1.2 = 404 ∨ r.1.2 = 500) ∧
  (upstream_calls r.2 = upstream_calls w ∨
   upstream_calls r.2 = upstream_calls w ++ [(city, units)]) ∧
  (∀ k, k ≠ cache_key_of str_lower city units → cache r.2 !! k = cache w !! k) ∧
  (r.1.2 = 500 →
     raises (upstream city units) ∨
     ∃ wd, upstream city units = Ok wd ∧ raises (subscript wd "status")) ∧
  ((∀ c u, ∃ wd status,
      upstream c u = Ok wd ∧ subscript wd "status" = Ok status) →
   r.1.2 ≠ 500).
Proof.
  assert (∃ cached st1,
            get (cache_key_of str_lower city units) t_get (cache w) = Ok (cached, st1))
    as (cached & st1 & Hget).
  { rewrite get_run.
    destruct (cache w !! cache_key_of str_lower city units) as [e|];
      [destruct (expired t_get e)|]; eauto. }
  destruct (get_shrinks _ _ _ _ _ Hget) as [_ Hframe].
  cbn zeta. rewrite (get_weather_run _ _ _ _ _ _ _ _ _ _ Hget).
  destruct (truthy cached).
  { cbn. split_and!; auto; try done. }
  destruct (upstream city units) as [wd|ex] eqn:Hup.
  - destruct (subscript wd "status") as [status|ex] eqn:Hst.
    + destruct (eq_str status "error"); cbn;
        (split_and!; auto; try done).
      intros k Hne. rewrite lookup_insert_ne by done. auto.
    + cbn. split_and!; auto.
      * intros _. right. exists wd. by rewrite Hst.
      * intros Hgood. destruct (Hgood city units) as (wd' & s & Hwd & Hs).
        rewrite Hup in Hwd. injection Hwd as <-. by rewrite Hst in Hs.
  - cbn. split_and!; auto.
    intros Hgood. destruct (Hgood city units) as (wd' & s & Hwd & _).
    by rewrite Hup in Hwd.
Qed.

Lemma get_weather_status_codes_witness :
  (get_weather lower sample_upstream "Oslo" "metric"
     (clock_at 40) (clock_at 41) (clock_at 42)
     {| cache := init; upstream_calls := [] |}).1.2 ≠ 500.
Proof.
  apply (get_weather_status_codes lower sample_upstream "Oslo" "metric"
           (clock_at 40) (clock_at 41) (clock_at 42)
           {| cache := init; upstream_calls := [] |}).
  intros c u. eexists _, _. split; reflexivity.
Defined.

(** ** [get_cached_weather] *)

(** X13.  [get_cached_weather] never calls the weather service and never
    adds a cache entry.  It answers 200 exactly when the cache holds, for
    the key built from the city and the [units] parameter (['metric']
    when absent), an unexpired entry with a truthy payload, and then the
    body is that payload; in every other case it answers 404. *)
Theorem get_cached_weather_reads_only
    (str_lower : string → string) city units_arg (t_get : clock) (w : world) :
  let key := cache_key_of str_lower city (default "metric" units_arg) in
  let r := get_cached_weather str_lower city units_arg t_get w in
  upstream_calls r.2 = upstream_calls w ∧
  cache r.2 ⊆ cache w ∧
  (r.1.2 = 200 ∨ r.1 = no_cached_data) ∧
  (∀ e, cache w !! key = Some e → (t_get <= expires_at e)%Q →
        truthy (value e) = true → r = ((value e, 200), w)) ∧
  (r.1.2 = 200 →
     ∃ e, cache w !! key = Some e ∧ (t_get <= expires_at e)%Q ∧
          truthy (value e) = true ∧ r.1.1 = value e).
Proof.
  cbn zeta. unfold get_cached_weather. rewrite get_run.
  destruct (cache w !! cache_key_of str_lower city (default "metric" units_arg))
    as [e|] eqn:Hk.
  - destruct (expired t_get e) eqn:Hex.
    + cbn. split_and!; auto; try done.
      * apply delete_subseteq.
      * intros e' [= <-] Hlive. apply expired_false in Hlive. congruence.
    + cbn [value]. destruct (truthy (value e)) eqn:Htr; cbn.
      * apply expired_false in Hex. split_and!; auto; try done.
        -- intros e' [= <-] _ _. by destruct w.
        -- intros _. exists e. done.
      * split_and!; auto; try done. intros e' [= <-] _ ?. congruence.
  - cbn. split_and!; auto; try done.
Qed.

Lemma get_cached_weather_reads_only_witness :
  get_cached_weather lower "OSLO" None (clock_at 9)
    {| cache := oslo_store; upstream_calls := [] |}
  = ((PStr "rain", 200), {| cache := oslo_store; upstream_calls := [] |}).
Proof.
  pose proof (get_cached_weather_reads_only lower "OSLO" None (clock_at 9)
                {| cache := oslo_store; upstream_calls := [] |})
    as (_ & _ & _ & Hhit & _).
  apply (Hhit (Entry (PStr "rain") 10 0)); by_evaluation.
Defined.

(** ** Cache keys *)




(** ** [WeatherService] behind [get_weather] *)

(** X15.  Every failure of the weather provider ends as a 404 of
    [get_weather]: when the request times out, the connection fails,
    anything else is raised, the provider answers with a status other
    than 200, or its answer cannot be read or formatted, then
    [WeatherService.get_weather_by_city] returns an error payload, and
    [get_weather], on a cache miss, answers 404 with it and stores
    nothing. *)
Theorem provider_failure_answered_404
    (str_lower : string → string)
    (format_weather_response : pyval → string → result pyval)
    http city units (t_get t_exp t_created : clock) (w : world) :
  (∀ data, http = WeatherService.Responded 200 (Ok data) →
           raises (format_weather_response data units)) →
  cache w !! cache_key_of str_lower city units = None →
  ∃ message,
    WeatherService.get_weather_by_city format_weather_response http city units
      = WeatherService.error_response message ∧
    get_weather str_lower
      (λ c u, Ok (WeatherService.get_weather_by_city
                    format_weather_response http c u))
      city units t_get t_exp t_created w
    = ((WeatherService.error_response message, 404),
       {| cache := cache w;
          upstream_calls := upstream_calls w ++ [(city, units)] |}).
Proof.
  intros Hfail Hmiss.
  assert (∃ message,
            WeatherService.get_weather_by_city format_weather_response http
              city units = WeatherService.error_response message)
    as [message Hmsg].
  { unfold WeatherService.get_weather_by_city.
    destruct http as [code json| | |]; eauto.
    destruct (code =? 200) eqn:Hcode.
    - apply Z.eqb_eq in Hcode as ->. destruct json as [data|]; eauto.
      specialize (Hfail data eq_refl).
      destruct (format_weather_response data units); [done|eauto].
    - destruct (code =? 404); [eauto|]. destruct (code =? 401); eauto. }
  exists message. split; [done|].
  rewrite (get_weather_run _ _ _ _ _ _ _ _ PNone (cache w))
    by (by rewrite get_run, Hmiss).
  cbn [truthy]. by rewrite Hmsg.
Qed.

Lemma provider_failure_answered_404_witness :
  ∃ message,
    WeatherService.get_weather_by_city (λ data _, Ok data)
      WeatherService.RaisedTimeout "Oslo" "metric"
      = WeatherService.error_response message ∧
    get_weather lower
      (λ c u, Ok (WeatherService.get_weather_by_city (λ data _, Ok data)
                    WeatherService.RaisedTimeout c u))
      "Oslo" "metric" (clock_at 1) (clock_at 1) (clock_at 1)
      {| cache := init; upstream_calls := [] |}
    = ((WeatherService.error_response message, 404),
       {| cache := init; upstream_calls := [] ++ [("Oslo", "metric")] |}).
Proof.
  apply (provider_failure_answered_404 lower (λ data _, Ok data)
           WeatherService.RaisedTimeout "Oslo" "metric"
           (clock_at 1) (clock_at 1) (clock_at 1)
           {| cache := init; upstream_calls := [] |}).
  - discriminate.
  - reflexivity.
Defined.

(** * Properties of [MockWeatherService] *)

Lemma lookup_city_elem k c d :
  MockWeatherService.lookup_city k d = Some c → (k, c) ∈ d.
Proof.
  induction d as [|[k' c'] d IH]; cbn; [done|].
  destruct (String.eqb k k') eqn:Hk.
  - apply String.eqb_eq in Hk as ->. intros [= ->]. by left.
  - intros H. right. auto.
Qed.

Lemma lookup_city_keys k d :
  k ∈ d.*1 → is_Some (MockWeatherService.lookup_city k d).
Proof.
  induction d as [|[k' c'] d IH]; cbn; [by intros ?%elem_of_nil|].
  destruct (String.eqb k k') eqn:Hk; [eauto|].
  intros [->|Hin]%elem_of_cons; [|auto].
  by rewrite String.eqb_refl in Hk.
Qed.

Lemma mock_data_bounds k c :
  (k, c) ∈ MockWeatherService.mock_data →
  -5 ≤ MockWeatherService.temperature c ≤ 32 ∧
  55 ≤ MockWeatherService.humidity c ≤ 85 ∧
  8 ≤ MockWeatherService.wind_speed c ≤ 25.
Proof.
  unfold MockWeatherService.mock_data.
  rewrite !elem_of_cons, elem_of_nil.
  intros H; repeat destruct H as [H|H]; try done;
    injection H as -> ->; cbn; lia.
Qed.

(** X16.  For a city of the test data [get_weather_by_city] returns a
    payload with ['status'] ['success'] in which, whatever numbers the
    random generator gave, ['humidity'] is an integer from 0 to 100 and
    ['wind_speed'] is never negative: a non-negative integer, or in
    imperial units a positive float or the integer 0. *)
Theorem mock_humidity_and_wind_clamped
    (str_lower str_strip str_title : string → string)
    dt dh dw timestamp city units base :
  MockWeatherService.lookup_city (str_strip (str_lower city))
    MockWeatherService.mock_data = Some base →
  let r := MockWeatherService.get_weather_by_city str_lower str_strip
             str_title dt dh dw timestamp city units in
  subscript r "status" = Ok (PStr "success") ∧
  truthy r = true ∧
  (∃ h, subscript r "humidity" = Ok (PInt h) ∧ 0 ≤ h ≤ 100) ∧
  ((∃ ws, subscript r "wind_speed" = Ok (PInt ws) ∧ 0 ≤ ws) ∨
   (∃ q, subscript r "wind_speed" = Ok (PFloat q) ∧ (0 < q)%Q)).
Proof.
  intros Hbase. cbn zeta. unfold MockWeatherService.get_weather_by_city.
  rewrite Hbase. cbn zeta. split_and!; [done|done|..].
  - eexists. split; [reflexivity|]. lia.
  - destruct (String.eqb units "imperial"); cbn.
    + destruct (Qgt_bool _ 0) eqn:Hq.
      * right. eexists. split; [reflexivity|]. by apply Qgt_bool_true.
      * left. exists 0. done.
    + left. eexists. split; [reflexivity|]. lia.
Qed.

Lemma mock_humidity_and_wind_clamped_witness :
  let r := MockWeatherService.get_weather_by_city lower id id
             0 500 (-500) "2024-01-01T00:00:00" "Mumbai" "metric" in
  subscript r "status" = Ok (PStr "success") ∧
  truthy r = true ∧
  (∃ h, subscript r "humidity" = Ok (PInt h) ∧ 0 ≤ h ≤ 100) ∧
  ((∃ ws, subscript r "wind_speed" = Ok (PInt ws) ∧ 0 ≤ ws) ∨
   (∃ q, subscript r "wind_speed" = Ok (PFloat q) ∧ (0 < q)%Q)).
Proof.
  apply (mock_humidity_and_wind_clamped lower id id 0 500 (-500)
           "2024-01-01T00:00:00" "Mumbai" "metric"
           (MockWeatherService.CityData 32 "Thunderstorm" 85 22 "11d")).
  reflexivity.
Defined.

(** X17.  With the variations [random.randint] can return (-3..3 for the
    temperature, -5..5 for the humidity, -2..2 for the wind speed) the two
    clamps never change a value for any city of the test data: the
    humidity reported is the table's plus the variation and lies between
    50 and 90, and in units other than imperial the temperature lies
    between -8 and 35 and the wind speed, the table's plus the variation,
    between 6 and 27. *)
Theorem mock_clamps_inert
    (str_lower str_strip str_title : string → string)
    dt dh dw timestamp city units base :
  MockWeatherService.lookup_city (str_strip (str_lower city))
    MockWeatherService.mock_data = Some base →
  -3 ≤ dt ≤ 3 → -5 ≤ dh ≤ 5 → -2 ≤ dw ≤ 2 →
  let r := MockWeatherService.get_weather_by_city str_lower str_strip
             str_title dt dh dw timestamp city units in
  subscript r "humidity" = Ok (PInt (MockWeatherService.humidity base + dh)) ∧
  50 ≤ MockWeatherService.humidity base + dh ≤ 90 ∧
  (String.eqb units "imperial" = false →
     subscript r "temperature"
       = Ok (PInt (MockWeatherService.temperature base + dt)) ∧
     -8 ≤ MockWeatherService.temperature base + dt ≤ 35 ∧
     subscript r "wind_speed"
       = Ok (PInt (MockWeatherService.wind_speed base + dw)) ∧
     6 ≤ MockWeatherService.wind_speed base + dw ≤ 27).
Proof.
  intros Hbase Hdt Hdh Hdw. cbn zeta.
  destruct (mock_data_bounds _ _ (lookup_city_elem _ _ _ Hbase))
    as (Ht & Hh & Hw).
  unfold MockWeatherService.get_weather_by_city. rewrite Hbase. cbn zeta.
  split; [cbn; do 2 f_equal; lia|]. split; [lia|].
  intros ->. cbn. split; [done|]. split; [lia|].
  split; [do 2 f_equal; lia|lia].
Qed.

Lemma mock_clamps_inert_witness :
  let r := MockWeatherService.get_weather_by_city lower id id
             3 (-5) 2 "2024-01-01T00:00:00" "Moscow" "metric" in
  subscript r "humidity" = Ok (PInt (82 + -5)) ∧
  50 ≤ 82 + -5 ≤ 90 ∧
  (String.eqb "metric" "imperial" = false →
     subscript r "temperature" = Ok (PInt (-5 + 3)) ∧
     -8 ≤ -5 + 3 ≤ 35 ∧
     subscript r "wind_speed" = Ok (PInt (25 + 2)) ∧
     6 ≤ 25 + 2 ≤ 27).
Proof.
  apply (mock_clamps_inert lower id id 3 (-5) 2 "2024-01-01T00:00:00"
           "Moscow" "metric"
           (MockWeatherService.CityData (-5) "Heavy snow" 82 25 "13d"));
    [reflexivity|lia..].
Defined.

(** X18.  A city that is not in the test data: [get_weather_by_city]
    returns a payload with ['status'] ['error'], and [get_weather] with
    the mock service behind it answers 404 on a cache miss and stores
    nothing. *)
Theorem mock_unknown_city_404
    (str_lower str_strip str_title : string → string)
    dt dh dw timestamp city units (t_get t_exp t_created : clock) (w : world) :
  MockWeatherService.lookup_city (str_strip (str_lower city))
    MockWeatherService.mock_data = None →
  cache w !! cache_key_of str_lower city units = None →
  let wd := MockWeatherService.get_weather_by_city str_lower str_strip
              str_title dt dh dw timestamp city units in
  subscript wd "status" = Ok (PStr "error") ∧
  get_weather str_lower
    (λ c u, Ok (MockWeatherService.get_weather_by_city str_lower str_strip
                  str_title dt dh dw timestamp c u))
    city units t_get t_exp t_created w
  = ((wd, 404),
     {| cache := cache w;
        upstream_calls := upstream_calls w ++ [(city, units)] |}).
Proof.
  intros Hnone Hmiss. cbn zeta.
  rewrite (get_weather_run _ _ _ _ _ _ _ _ PNone (cache w))
    by (by rewrite get_run, Hmiss).
  unfold MockWeatherService.get_weather_by_city. rewrite Hnone. done.
Qed.

Lemma mock_unknown_city_404_witness :
  let wd := MockWeatherService.get_weather_by_city lower id id
              1 1 1 "2024-01-01T00:00:00" "Atlantis" "metric" in
  subscript wd "status" = Ok (PStr "error") ∧
  get_weather lower
    (λ c u, Ok (MockWeatherService.get_weather_by_city lower id id
                  1 1 1 "2024-01-01T00:00:00" c u))
    "Atlantis" "metric" (clock_at 1) (clock_at 1) (clock_at 1)
    {| cache := init; upstream_calls := [] |}
  = ((wd, 404),
     {| cache := init; upstream_calls := [] ++ [("Atlantis", "metric")] |}).
Proof.
  apply (mock_unknown_city_404 lower id id 1 1 1 "2024-01-01T00:00:00"
           "Atlantis" "metric" (clock_at 1) (clock_at 1) (clock_at 1)
           {| cache := init; upstream_calls := [] |}); by_evaluation.
Defined.

(** X19.  [get_random_weather] answers 403 outside test mode.  In test
    mode, given that lower-casing and stripping leave the keys of the test
    data as they are, it always answers 200 with a ['success'] payload:
    the city it draws is always found. *)
Theorem get_random_weather_finds_city
    (str_lower str_strip str_title : string → string)
    pick units_arg dt dh dw timestamp :
  (∀ c, c ∈ MockWeatherService.get_available_cities →
        str_strip (str_lower c) = c) →
  get_random_weather false str_lower str_strip str_title pick units_arg
    dt dh dw timestamp = test_mode_only ∧
  ∃ wd, get_random_weather true str_lower str_strip str_title pick units_arg
          dt dh dw timestamp = (wd, 200) ∧
        subscript wd "status" = Ok (PStr "success").
Proof.
  intros Hfix. split; [done|]. unfold get_random_weather. cbn [negb].
  destruct (MockWeatherService.get_available_cities
              !! (pick `mod` length MockWeatherService.get_available_cities)%nat)
    as [c|] eqn:Hc.
  - assert (c ∈ MockWeatherService.get_available_cities) as Hin
      by (by eapply list_elem_of_lookup_2).
    destruct (lookup_city_keys c MockWeatherService.mock_data Hin)
      as [base Hbase].
    eexists. split; [reflexivity|].
    unfold MockWeatherService.get_weather_by_city.
    by rewrite (Hfix c Hin), Hbase.
  - apply lookup_ge_None in Hc.
    pose proof (Nat.mod_upper_bound pick
                  (length MockWeatherService.get_available_cities)) as Hlt.
    cbn in Hlt, Hc. lia.
Qed.

Lemma get_random_weather_finds_city_witness :
  get_random_weather false lower id id 11 None 0 0 0 "2024-01-01T00:00:00"
    = test_mode_only ∧
  ∃ wd, get_random_weather true lower id id 11 None 0 0 0
          "2024-01-01T00:00:00" = (wd, 200) ∧
        subscript wd "status" = Ok (PStr "success").
Proof.
  apply (get_random_weather_finds_city lower id id 11 None 0 0 0
           "2024-01-01T00:00:00").
  intros c Hc. unfold MockWeatherService.get_available_cities in Hc.
  cbn in Hc. rewrite !elem_of_cons, elem_of_nil in Hc.
  repeat destruct Hc as [Hc|Hc]; try done; by subst c.
Defined.

(** * Expiry after [set], and [set] in the statistics *)

(** X20.  Expiry takes effect: after [set(key, value, ttl)] at clock
    reading [t], a [get] at a reading up to [t + ttl] returns the value
    and keeps the entry, and a [get] at a reading of [t + ttl + 2^-12] or
    later returns [None] and leaves the store without an entry for the
    key.  In between, the answer depends on how the sum [t + ttl] was
    rounded when it was stored. *)
Theorem set_then_get_expiry key v ttl t1 t2 (now : clock) (st st' : store) :
  set key v ttl t1 t2 st = Ok (tt, st') →
  ((now <= t1 + inject_Z (ttl_or_default ttl))%Q →
     get key now st' = Ok (v, st')) ∧
  ((t1 + inject_Z (ttl_or_default ttl) + (1 # 4096) <= now)%Q →
     ∃ st'', get key now st' = Ok (PNone, st'') ∧
             st'' !! key = None ∧
             ∀ k, k ≠ key → st'' !! k = st !! k).
Proof.
  intros [_ ->]%set_inv. rewrite get_run, lookup_insert_eq. split.
  - intros Hlive. apply (stored_expiry_ge now) in Hlive.
    by rewrite (proj2 (expired_false now (Entry v _ t2)) Hlive).
  - intros Hdead. apply (stored_expiry_lt now) in Hdead.
    rewrite (proj2 (expired_true now (Entry v _ t2)) Hdead).
    eexists. split; [reflexivity|]. rewrite delete_insert_eq. split.
    + apply lookup_delete_eq.
    + intros k Hne. by apply lookup_delete_ne.
Qed.

Lemma set_then_get_expiry_witness :
  get "test_ttl" (clock_at 100)
    {[ "test_ttl" := Entry (PStr "test_value") 101 100 ]}
    = Ok (PStr "test_value",
          {[ "test_ttl" := Entry (PStr "test_value") 101 100 ]}) ∧
  ∃ st'', get "test_ttl" (clock_at (1011 # 10))
            {[ "test_ttl" := Entry (PStr "test_value") 101 100 ]}
          = Ok (PNone, st'') ∧
          st'' !! "test_ttl" = None ∧
          ∀ k, k ≠ "test_ttl" → st'' !! k = init !! k.
Proof.
  split.
  - apply (set_then_get_expiry "test_ttl" (PStr "test_value") (Some 1)
             (clock_at 100) (clock_at 100) (clock_at 100) init);
      by_evaluation.
  - apply (set_then_get_expiry "test_ttl" (PStr "test_value") (Some 1)
             (clock_at 100) (clock_at 100) (clock_at (1011 # 10)) init);
      by_evaluation.
Defined.

(** Between [t + ttl] and [t + ttl + 2^-12] both answers occur.  A sum
    that is rounded up when stored keeps the entry readable just after
    the exact sum, and one that is rounded down does not. *)
Example get_just_after_exact_expiry :
  let t1 := clock_at (2147483647 + (3 # 4194304)) in
  let now1 := clock_at (2147483648 + (1 # 1048576)) in
  let t2 := clock_at (2147483647 + (1 # 4194304)) in
  let now2 := clock_at (2147483648 + (1 # 2097152)) in
  ∃ st1 st2,
    (seconds t1 == 2147483647 + (3 # 4194304))%Q ∧
    (seconds now1 == 2147483648 + (1 # 1048576))%Q ∧
    set "k" (PInt 1) (Some 1) t1 t1 init = Ok (tt, st1) ∧
    (t1 + 1 < now1)%Q ∧
    get "k" now1 st1 = Ok (PInt 1, st1) ∧
    (seconds t2 == 2147483647 + (1 # 4194304))%Q ∧
    (seconds now2 == 2147483648 + (1 # 2097152))%Q ∧
    set "k" (PInt 1) (Some 1) t2 t2 init = Ok (tt, st2) ∧
    (t2 + 1 < now2)%Q ∧
    get "k" now2 st2 = Ok (PNone, init).
Proof.
  exists {[ "k" := Entry (PInt 1) (2147483648 + (1 # 1048576))
                     (2147483647 + (3 # 4194304)) ]},
         {[ "k" := Entry (PInt 1) 2147483648
                     (2147483647 + (1 # 4194304)) ]}.
  split_and!; by_evaluation.
Qed.

(** X21.  A [set] on a key that has no entry adds one to
    [total_entries]; read at a clock reading up to the new entry's expiry,
    [get_stats()] after the [set] reports one more active entry than
    before it and the same number of expired entries. *)
Theorem set_adds_one_active key v ttl t1 t2 (now : clock) (st st' : store)
    s s' :
  st !! key = None →
  set key v ttl t1 t2 st = Ok (tt, st') →
  (now <= t1 + inject_Z (ttl_or_default ttl))%Q →
  get_stats now st = Ok (s, st) →
  get_stats now st' = Ok (s', st') →
  total_entries s' = total_entries s + 1 ∧
  active_entries s' = active_entries s + 1 ∧
  expired_entries s' = expired_entries s ∧
  key ∈ cache_keys s'.
Proof.
  intros Hnone [_ ->]%set_inv Hlive. rewrite !get_stats_run.
  intros [= <-] [= <-]. cbn.
  rewrite !length_expired_values, <- !size_filter_expired.
  apply (stored_expiry_ge now) in Hlive.
  pose proof (proj2 (expired_false now (Entry v _ t2)) Hlive) as Hex.
  rewrite map_filter_insert_False, delete_id by
    (done || (cbn; rewrite Hex; tauto)).
  rewrite map_size_insert_None by done.
  split_and!; try lia.
  apply elem_of_keys. rewrite lookup_insert_eq. eauto.
Qed.

Lemma set_adds_one_active_witness :
  total_entries (Stats 2 2 0 ["oslo_metric"; "rome_metric"])
    = total_entries (Stats 1 1 0 ["oslo_metric"]) + 1 ∧
  active_entries (Stats 2 2 0 ["oslo_metric"; "rome_metric"])
    = active_entries (Stats 1 1 0 ["oslo_metric"]) + 1 ∧
  expired_entries (Stats 2 2 0 ["oslo_metric"; "rome_metric"])
    = expired_entries (Stats 1 1 0 ["oslo_metric"]) ∧
  "rome_metric" ∈ cache_keys (Stats 2 2 0 ["oslo_metric"; "rome_metric"]).
Proof.
  apply (set_adds_one_active "rome_metric" (PStr "sun") (Some 25)
           (clock_at 5) (clock_at 5) (clock_at 6)
           oslo_store two_city_store); by_evaluation.
Defined.
